(** * Translation-key extraction, synchronization and merge

    A shallow embedding of [updateTranslations.js] and
    [mergeTranslations.js].

    Modelling conventions.
    - A JavaScript string is a [string]; each [ascii] stands for one code
      unit (code units above 255 are outside the model).
    - A plain object used as a dictionary (a locale store, the pending
      batch) is a [gmap]. Keys are ordinary property names (not names
      inherited from [Object.prototype]), and the values of a store are
      texts, as the translation files hold them.
    - A file on disk is either absent, present but rejected by
      [JSON.parse], or present with the sequence of properties that was
      serialized into it. Directory traversal and console output are not
      modelled: a run takes the contents of the source files it scans.
    - [process.exit(1)] ends a run: the outcome records why, and the file
      system is the one reached so far. *)

From Stdlib Require Import Ascii String.
From stdpp Require Import gmap strings list sorting.

(** ** Characters and strings *)

Module Chars.
Local Open Scope char_scope.

Definition newline : ascii := "010".
Definition backslash : ascii := "\".
Definition dquote : ascii := "034".
Definition squote : ascii := "'".
Definition backtick : ascii := "`".
Definition dollar : ascii := "$".
Definition lbrace : ascii := "{".
Definition lparen : ascii := "(".

Definition between (lo hi : nat) (c : ascii) : bool :=
  Nat.leb lo (nat_of_ascii c) && Nat.leb (nat_of_ascii c) hi.

(** The class [\w] of a regular expression: [A-Za-z0-9_]. *)
Definition isWordChar (c : ascii) : bool :=
  between 65 90 c || between 97 122 c || between 48 57 c
  || Ascii.eqb c "_".

(** The class [\s], which is also what [trim] strips: tab, line feed,
    vertical tab, form feed, carriage return, space and no-break space
    (the members below 256). *)
Definition isSpace (c : ascii) : bool :=
  between 9 13 c || Ascii.eqb c " " || Ascii.eqb c "160".

End Chars.
Import Chars.

(** [s.includes(c)] for a one-character [c]. *)
Fixpoint hasChar (c : ascii) (s : string) : bool :=
  match s with
  | EmptyString => false
  | String x s' => Ascii.eqb x c || hasChar c s'
  end.

(** The two-character sequence [$] immediately followed by [{]. *)
Fixpoint hasInterpolation (s : string) : bool :=
  match s with
  | EmptyString => false
  | String x s' =>
      match s' with
      | String y _ => (Ascii.eqb x dollar && Ascii.eqb y lbrace) || hasInterpolation s'
      | EmptyString => false
      end
  end.

(** [s.startsWith(c)] for a one-character [c]. *)
Definition startsWith (c : ascii) (s : string) : bool :=
  match s with String x _ => Ascii.eqb x c | EmptyString => false end.

(** The character [a] immediately followed by the character [b]. *)
Fixpoint hasPair (a b : ascii) (s : string) : bool :=
  match s with
  | EmptyString => false
  | String x s' => (Ascii.eqb x a && startsWith b s') || hasPair a b s'
  end.

(** [value += char] *)
Definition snoc (value : string) (char : ascii) : string :=
  value +:+ String char EmptyString.

(** Truthiness of a string: only the empty string is falsy. *)
Definition truthy (s : string) : bool :=
  match s with EmptyString => false | String _ _ => true end.

(** [String.prototype.trim]. *)
Fixpoint trimStart (s : string) : string :=
  match s with
  | EmptyString => EmptyString
  | String c s' => if isSpace c then trimStart s' else s
  end.

Definition trimEnd (s : string) : string :=
  String.rev (trimStart (String.rev s)).

Definition trim (s : string) : string := trimEnd (trimStart s).

(** ** The literal scanner ([extractTrCallsFromFile]) *)

Module Scanner.

(** [\b] between the character before the position (if any) and the
    text from the position on. *)
Definition wordBoundary (prev : option ascii) (s : string) : bool :=
  xorb (from_option isWordChar false prev)
       (match s with String c _ => isWordChar c | EmptyString => false end).

(** A match of [/\btr\s*\(/] that starts exactly at the head of [s];
    the result is the text after the match (from [match.index +
    match[0].length] on).  [\s*] is greedy, and giving whitespace back
    cannot produce a parenthesis. *)
Definition matchHere (prev : option ascii) (s : string) : option string :=
  if wordBoundary prev s then
    match s with
    | String "t"%char (String "r"%char rest) =>
        match trimStart rest with
        | String "("%char after => Some after
        | _ => None
        end
    | _ => None
    end
  else None.

(** [trCallRegex.exec(content)] from [lastIndex]: the leftmost match at
    or after the current position. [prev] is the code unit just before
    that position. *)
Fixpoint exec (prev : option ascii) (s : string) : option string :=
  match matchHere prev s with
  | Some after => Some after
  | None =>
      match s with
      | EmptyString => None
      | String c s' => exec (Some c) s'
      end
  end.

Definition isQuote (c : ascii) : bool :=
  Ascii.eqb c dquote || Ascii.eqb c squote || Ascii.eqb c backtick.

(** The inner [while (index < content.length)] loop. [s] is the content
    from [index] on. [None]: the loop ran off the end of the text
    ([index >= content.length]); [Some]: it stopped at the closing
    quote, with the value and the two flags. *)
Fixpoint readLiteral (quote : ascii) (s : string) (value : string)
    (hasNewline hasTemplateExpression escaped : bool)
    : option (string * bool * bool) :=
  match s with
  | EmptyString => None
  | String char rest =>
      if escaped then
        readLiteral quote rest (snoc value char) hasNewline hasTemplateExpression false
      else if Ascii.eqb char backslash then
        readLiteral quote rest value hasNewline hasTemplateExpression true
      else
        let hasTemplateExpression :=
          if Ascii.eqb quote backtick && Ascii.eqb char dollar
             && match rest with String next _ => Ascii.eqb next lbrace | EmptyString => false end
          then true else hasTemplateExpression in
        if Ascii.eqb char quote then
          Some (value, hasNewline, hasTemplateExpression)
        else
          let hasNewline := if Ascii.eqb char newline then true else hasNewline in
          readLiteral quote rest (snoc value char) hasNewline hasTemplateExpression false
  end.

(** One iteration of the outer loop after a match: [after] is the text
    that follows the opening parenthesis. [Some value] when a key is
    accepted, [None] on each [continue]. *)
Definition literalAt (after : string) : option string :=
  match trimStart after with
  | EmptyString => None
  | String quote rest =>
      if isQuote quote then
        match readLiteral quote rest EmptyString false false false with
        | None => None
        | Some (value, hasNewline, hasTemplateExpression) =>
            if negb (truthy value) || hasNewline || hasTemplateExpression
            then None else Some value
        end
      else None
  end.

(** [if (!keys.includes(value)) keys.push(value)] *)
Definition pushUnique (keys : list string) (value : string) : list string :=
  if bool_decide (value ∈ keys) then keys else keys ++ [value].

(** The outer [while ((match = trCallRegex.exec(content)) !== null)]
    loop. Every path through the body leaves [lastIndex] just after the
    opening parenthesis of the match, so the next search resumes there.
    Each iteration consumes at least three characters; [fuel] bounds
    the number of iterations. *)
Fixpoint scanLoop (fuel : nat) (prev : option ascii) (s : string)
    (keys : list string) : list string :=
  match fuel with
  | O => keys
  | S fuel' =>
      match exec prev s with
      | None => keys
      | Some after =>
          scanLoop fuel' (Some lparen) after
            (match literalAt after with
             | Some value => pushUnique keys value
             | None => keys
             end)
      end
  end.

(** [extractTrCallsFromFile], as a function of the file's content. *)
Definition extractTrCallsFromFile (content : string) : list string :=
  scanLoop (String.length content) None content [].

End Scanner.

(** ** What an accepted literal looks like

    [Body quote raw key]: [raw] is text that holds no unescaped [quote],
    no unescaped newline and, for a backtick literal, no unescaped [$]
    directly followed by [{]; [key] is [raw] with every escaping
    backslash dropped and the character after it kept as it is. *)

Inductive Body (quote : ascii) : string → string → Prop :=
  | Body_end : Body quote EmptyString EmptyString
  | Body_escape c raw key :
      Body quote raw key →
      Body quote (String backslash (String c raw)) (String c key)
  | Body_plain c raw key :
      c ≠ backslash → c ≠ quote → c ≠ newline →
      ¬ (quote = backtick ∧ c = dollar ∧ startsWith lbrace raw = true) →
      Body quote raw key →
      Body quote (String c raw) (String c key).

(** A text that consists only of whitespace (the empty text included). *)
Fixpoint onlySpaces (s : string) : bool :=
  match s with
  | EmptyString => true
  | String c s' => isSpace c && onlySpaces s'
  end.

Definition allSpace (s : string) : Prop := onlySpaces s = true.

(** [TrLiteral content quote raw]: somewhere in [content] there is
    [tr], whitespace, an opening parenthesis, whitespace, and the literal
    [raw] between two [quote]s. *)
Definition TrLiteral (content : string) (quote : ascii) (raw : string) : Prop :=
  ∃ pre ws1 ws2 rest,
    allSpace ws1 ∧ allSpace ws2 ∧
    content = pre +:+ "tr" +:+ ws1 +:+ "(" +:+ ws2
              +:+ String quote (raw +:+ String quote rest).

(** ** Locale stores and the pending batch on disk *)

(** A locale file [<locale>.json]: [Unparsable] when [JSON.parse] throws
    on its content; otherwise the properties of the record, in the order
    they were written. The text of a file written by [saveTranslationFile]
    is [JSON.stringify] of the object built by inserting these properties
    in this order, so equal sequences are equal files. *)
Inductive storeFile : Type :=
  | Unparsable
  | Record (entries : list (string * string)).

(** A property of [toTranslate.json]: the value under a locale is an
    object of texts, or something that is not an object. *)
Inductive batchValue : Type :=
  | NotAnObject
  | Translations (translations : gmap string string).

Inductive batchFile : Type :=
  | BatchUnparsable
  | Batch (data : gmap string batchValue).

Record fileSystem : Type := FileSystem {
  stores : gmap string storeFile;
  pending : option batchFile
}.

(** [JSON.parse] of a record: a later duplicate of a key overrides an
    earlier one. *)
Definition parseRecord (entries : list (string * string)) : gmap string string :=
  foldl (λ m kv, <[kv.1 := kv.2]> m) ∅ entries.

(** [Object.keys(o)] *)
Definition objectKeys {A} (o : gmap string A) : list string :=
  (map_to_list o).*1.

(** [keys.sort()]: the default comparison orders strings by code units. *)
Definition sortKeys (keys : list string) : list string :=
  merge_sort String.le keys.

(** [!value || value.trim() === ""] for a text. *)
Definition blankText (value : string) : bool :=
  negb (truthy value) || String.eqb (trim value) EmptyString.

(** The same test on [o[key]], which is [undefined] for a missing key. *)
Definition missingOrBlank (value : option string) : bool :=
  match value with
  | None => true
  | Some text => blankText text
  end.

(** [existingValue || fallback] *)
Definition orElse (existingValue : option string) (fallback : string) : string :=
  match existingValue with
  | Some text => if truthy text then text else fallback
  | None => fallback
  end.

(** The keys of the store a locale file holds; none when the file is
    absent or unparsable. *)
Definition storeKeys (fs : fileSystem) (locale : string) : gset string :=
  match stores fs !! locale with
  | Some (Record entries) => dom (parseRecord entries)
  | _ => ∅
  end.

(** ** Synchronization ([updateTranslations.js]) *)

Module Update.
Import Scanner.

Definition SUPPORTED_LOCALES : list string :=
  ["en"; "de"; "fr"; "es"; "sv"; "pt-br"; "it"; "nl"; "ja"; "ko";
   "zh-cn"; "zh-tw"; "tr"; "th"; "pl"; "ar"; "da"; "fi"; "id"; "ms"].

Definition CANONICAL_LOCALE : string := "en".

(** [extractAllTrKeys]; [sources] are the contents of the files that
    [findSourceFiles] returns, in that order. *)
Definition extractAllTrKeys (sources : list string) : list string :=
  sortKeys
    (foldl (λ allKeys content,
              foldl pushUnique allKeys (extractTrCallsFromFile content))
           [] sources).

(** [loadTranslationFile]: whatever goes wrong, the result is [{}]. *)
Definition loadTranslationFile (fs : fileSystem) (locale : string)
    : gmap string string :=
  match stores fs !! locale with
  | Some (Record entries) => parseRecord entries
  | Some Unparsable => ∅
  | None => ∅
  end.

Definition saveTranslationFile (locale : string)
    (translations : gmap string string) (fs : fileSystem) : fileSystem :=
  let sortedKeys := sortKeys (objectKeys translations) in
  let sortedTranslations := (λ key, (key, translations !!! key)) <$> sortedKeys in
  {| stores := <[locale := Record sortedTranslations]> (stores fs);
     pending := pending fs |}.

(** [if (!toTranslate[locale]) toTranslate[locale] = {};
     toTranslate[locale][key] = ""] *)
Definition markPending (locale key : string)
    (toTranslate : gmap string (gmap string string))
    : gmap string (gmap string string) :=
  <[locale := <[key := EmptyString]> (default ∅ (toTranslate !! locale))]> toTranslate.

(** The body of [for (const key of extractedKeys)]. *)
Definition rebuildKey (locale : string) (existingKeys : list string)
    (currentTranslations : gmap string string)
    (acc : gmap string string * gmap string (gmap string string))
    (key : string) : gmap string string * gmap string (gmap string string) :=
  let updatedTranslations := acc.1 in
  let toTranslate := acc.2 in
  if bool_decide (key ∈ existingKeys) then
    let existingValue := currentTranslations !! key in
    if bool_decide (locale = CANONICAL_LOCALE) then
      (<[key := orElse existingValue key]> updatedTranslations, toTranslate)
    else
      (<[key := orElse existingValue EmptyString]> updatedTranslations,
       if missingOrBlank existingValue
       then markPending locale key toTranslate else toTranslate)
  else
    if bool_decide (locale = CANONICAL_LOCALE) then
      (<[key := key]> updatedTranslations, toTranslate)
    else
      (<[key := EmptyString]> updatedTranslations,
       markPending locale key toTranslate).

(** The body of [for (const locale of SUPPORTED_LOCALES)]. *)
Definition rebuildLocale (extractedKeys existingKeys : list string)
    (acc : fileSystem * gmap string (gmap string string))
    (locale : string) : fileSystem * gmap string (gmap string string) :=
  let currentTranslations := loadTranslationFile acc.1 locale in
  let rebuilt :=
    foldl (rebuildKey locale existingKeys currentTranslations)
          (∅, acc.2) extractedKeys in
  (saveTranslationFile locale rebuilt.1 acc.1, rebuilt.2).

Record report : Type := Report {
  removedKeys : list string;
  newKeys : list string;
  upToDate : bool;
  final : fileSystem
}.

Definition main (sources : list string) (fs : fileSystem) : report :=
  let extractedKeys := extractAllTrKeys sources in
  let canonicalTranslations := loadTranslationFile fs CANONICAL_LOCALE in
  let existingKeys := objectKeys canonicalTranslations in
  let removed := filter (λ key, key ∉ extractedKeys) existingKeys in
  let new := filter (λ key, key ∉ existingKeys) extractedKeys in
  let updated :=
    foldl (rebuildLocale extractedKeys existingKeys) (fs, ∅) SUPPORTED_LOCALES in
  let toTranslate := updated.2 in
  if bool_decide (0 < length (objectKeys toTranslate)) then
    {| removedKeys := removed; newKeys := new; upToDate := false;
       final := {| stores := stores updated.1;
                   pending := Some (Batch (Translations <$> toTranslate)) |} |}
  else
    {| removedKeys := removed; newKeys := new; upToDate := true;
       final := updated.1 |}.

(** The pending batch that a run computes. *)
Definition computedBatch (sources : list string) (fs : fileSystem)
    : gmap string (gmap string string) :=
  let extractedKeys := extractAllTrKeys sources in
  let existingKeys := objectKeys (loadTranslationFile fs CANONICAL_LOCALE) in
  (foldl (rebuildLocale extractedKeys existingKeys) (fs, ∅) SUPPORTED_LOCALES).2.

End Update.

(** ** Merge ([mergeTranslations.js]) *)

Module Merge.

(** [loadTranslationFile]: [None] when it throws. *)
Definition loadTranslationFile (fs : fileSystem) (locale : string)
    : option (gmap string string) :=
  match stores fs !! locale with
  | Some (Record entries) => Some (parseRecord entries)
  | Some Unparsable => None
  | None => None
  end.

Definition saveTranslationFile (locale : string)
    (translations : gmap string string) (fs : fileSystem) : fileSystem :=
  let sortedKeys := sortKeys (objectKeys translations) in
  let sortedTranslations := (λ key, (key, translations !!! key)) <$> sortedKeys in
  {| stores := <[locale := Record sortedTranslations]> (stores fs);
     pending := pending fs |}.

(** A line of the rejection report: the locale, a colon and a space,
    and the key between double quotes. *)
Definition formatItem (locale key : string) : string :=
  locale +:+ ": " +:+ String dquote (key +:+ String dquote EmptyString).

(** The entries of one locale that fail the completeness test. *)
Definition emptyTranslations (translations : gmap string string)
    : list (string * string) :=
  filter (λ kv, blankText kv.2 = true) (map_to_list translations).

(** The validation loop. [inl locale]: the run stopped at a locale whose
    value is not an object. [inr]: the loop finished, with the flag and
    the report lines collected. *)
Fixpoint validate (entries : list (string * batchValue))
    (hasEmptyTranslations : bool) (allEmptyTranslations : list string)
    : string + bool * list string :=
  match entries with
  | [] => inr (hasEmptyTranslations, allEmptyTranslations)
  | (locale, NotAnObject) :: _ => inl locale
  | (locale, Translations translations) :: rest =>
      let empty := emptyTranslations translations in
      if bool_decide (0 < length empty) then
        validate rest true
          (allEmptyTranslations ++ ((λ kv, formatItem locale kv.1) <$> empty))
      else
        validate rest hasEmptyTranslations allEmptyTranslations
  end.

(** The body of [for (const [key, value] of Object.entries(newTranslations))]. *)
Definition mergeEntry (acc : gmap string string * nat) (kv : string * string)
    : gmap string string * nat :=
  if negb (blankText kv.2) then (<[kv.1 := kv.2]> acc.1, S acc.2) else acc.

(** The body of the merge loop over the locales of the batch; a locale
    whose file cannot be loaded is reported and skipped. The loop is
    only reached when every value is an object. *)
Definition mergeLocale (acc : fileSystem * nat) (entry : string * batchValue)
    : fileSystem * nat :=
  match entry.2 with
  | NotAnObject => acc
  | Translations newTranslations =>
      match loadTranslationFile acc.1 entry.1 with
      | None => acc
      | Some currentTranslations =>
          let merged :=
            foldl mergeEntry (currentTranslations, 0)
                  (map_to_list newTranslations) in
          (saveTranslationFile entry.1 merged.1 acc.1, acc.2 + merged.2)
      end
  end.

Inductive outcome : Type :=
  | NoBatch
  | BatchUnreadable
  | InvalidFormat (locale : string)
  | Untranslated (items : list string)
  | Merged (totalMerged : nat).

(** A run ends through [process.exit(1)] in the first four outcomes. *)
Definition exitCode (o : outcome) : nat :=
  match o with Merged _ => 0 | _ => 1 end.

Record report : Type := Report {
  result : outcome;
  final : fileSystem
}.

Definition main (fs : fileSystem) : report :=
  match pending fs with
  | None => {| result := NoBatch; final := fs |}
  | Some BatchUnparsable => {| result := BatchUnreadable; final := fs |}
  | Some (Batch toTranslateData) =>
      let entries := map_to_list toTranslateData in
      match validate entries false [] with
      | inl locale => {| result := InvalidFormat locale; final := fs |}
      | inr (hasEmptyTranslations, allEmptyTranslations) =>
          if hasEmptyTranslations then
            {| result := Untranslated allEmptyTranslations; final := fs |}
          else
            let merged := foldl mergeLocale (fs, 0) entries in
            if bool_decide (0 < merged.2) then
              {| result := Merged merged.2;
                 final := {| stores := stores merged.1; pending := None |} |}
            else
              {| result := Merged merged.2; final := merged.1 |}
      end
  end.

End Merge.

(** ** Closed forms of the synchronization loops

    What one pass over the extracted keys stores for a key, and whether
    it lists the key in the pending batch; both are read off the
    branches of [Update.rebuildKey]. *)

Definition rebuiltText (locale : string) (existingKeys : list string)
    (currentTranslations : gmap string string) (key : string) : string :=
  if bool_decide (key ∈ existingKeys) then
    orElse (currentTranslations !! key)
           (if bool_decide (locale = Update.CANONICAL_LOCALE) then key else EmptyString)
  else
    if bool_decide (locale = Update.CANONICAL_LOCALE) then key else EmptyString.

Definition needsTranslation (locale : string) (existingKeys : list string)
    (currentTranslations : gmap string string) (key : string) : bool :=
  negb (bool_decide (locale = Update.CANONICAL_LOCALE)) &&
  (negb (bool_decide (key ∈ existingKeys)) || missingOrBlank (currentTranslations !! key)).

(** The properties [saveTranslationFile] writes for a store. *)
Definition savedEntries (translations : gmap string string) : list (string * string) :=
  (λ key, (key, translations !!! key)) <$> sortKeys (objectKeys translations).

(** The store one pass of [Update.rebuildLocale] builds for a locale,
    from the files as they are before the run. *)
Definition rebuiltStore (extractedKeys existingKeys : list string)
    (fs : fileSystem) (locale : string) : gmap string string :=
  (foldl (Update.rebuildKey locale existingKeys
            (Update.loadTranslationFile fs locale))
         (∅, ∅) extractedKeys).1.

(** ** Two readings of the synchronization rules, as the specification
    words them *)

(** Carry-forward decided by the locale's own prior store: whenever the
    locale's prior store has a text for a canonical key, the rebuilt store
    has that text. *)
Definition CarriesOwnText (sources : list string) (fs : fileSystem) : Prop :=
  ∀ locale key text,
    locale ∈ Update.SUPPORTED_LOCALES →
    key ∈ Update.extractAllTrKeys sources →
    Update.loadTranslationFile fs locale !! key = Some text →
    Update.loadTranslationFile (Update.final (Update.main sources fs)) locale !! key
    = Some text.

(** The canonical store after a run maps every canonical key to itself. *)
Definition CanonicalIsIdentity (sources : list string) (fs : fileSystem) : Prop :=
  ∀ key,
    key ∈ Update.extractAllTrKeys sources →
    Update.loadTranslationFile (Update.final (Update.main sources fs))
      Update.CANONICAL_LOCALE !! key = Some key.

(** Whitespace-only text of a non-canonical locale is kept in the store
    and the key is still listed, with empty text, in the pending batch. *)
Definition KeepsWhitespaceText (sources : list string) (fs : fileSystem) : Prop :=
  ∀ locale key text,
    locale ∈ Update.SUPPORTED_LOCALES → locale ≠ Update.CANONICAL_LOCALE →
    key ∈ Update.extractAllTrKeys sources →
    Update.loadTranslationFile fs locale !! key = Some text →
    text ≠ EmptyString → allSpace text →
    Update.loadTranslationFile (Update.final (Update.main sources fs)) locale !! key
    = Some text ∧
    ∃ batch entries,
      pending (Update.final (Update.main sources fs)) = Some (Batch batch) ∧
      batch !! locale = Some (Translations entries) ∧
      entries !! key = Some EmptyString.

(** After a run whose computed batch is empty, no pending-batch resource
    exists. *)
Definition NoBatchWhenUpToDate (sources : list string) (fs : fileSystem) : Prop :=
  Update.computedBatch sources fs = ∅ →
  pending (Update.final (Update.main sources fs)) = None.

(** A loader that tells a file that does not parse from a missing one:
    the empty store for a missing file, a failure for an unparsable one. *)
Definition TellsMalformedFromAbsent
    (load : fileSystem → string → option (gmap string string)) : Prop :=
  ∀ fs locale,
    (stores fs !! locale = None → load fs locale = Some ∅) ∧
    (stores fs !! locale = Some Unparsable → load fs locale = None).

(** ** The rejection report, in closed form *)

(** The report lines of one property of the batch. *)
Definition offendingOf (entry : string * batchValue) : list string :=
  match entry.2 with
  | NotAnObject => []
  | Translations translations =>
      (λ kv, Merge.formatItem entry.1 kv.1) <$> Merge.emptyTranslations translations
  end.

(** All report lines, locale after locale. *)
Definition offending (entries : list (string * batchValue)) : list string :=
  entries ≫= offendingOf.

(** A blank entry of the batch: a locale, a key of its object and a text
    that fails the completeness test. *)
Definition BlankEntry (data : gmap string batchValue) (locale key : string) : Prop :=
  ∃ translations text,
    data !! locale = Some (Translations translations) ∧
    translations !! key = Some text ∧ blankText text = true.

(** Every value of the batch is an object of texts. *)
Definition WellShaped (data : gmap string batchValue) : Prop :=
  ∀ locale, data !! locale ≠ Some NotAnObject.

(** What the whole scan accepts. *)
Definition Accepted (content key : string) : Prop :=
  key ≠ EmptyString ∧
  ∃ quote raw,
    Scanner.isQuote quote = true ∧ TrLiteral content quote raw ∧ Body quote raw key.

(** ** Concrete inputs used below *)

Definition nl : string := String newline EmptyString.
Definition bs : string := String backslash EmptyString.

(** A call whose literal holds a backslash followed by a line feed. *)
Definition escapedNewlineSource : string :=
  "tr('a" +:+ bs +:+ nl +:+ "b')".

(** A call whose single-quoted literal holds a dollar sign and a brace. *)
Definition quotedDollarSource : string := "tr('Hello ${name}')".

(** The three properties of an extracted key, as the specification words
    them. *)
Definition CleanKey (key : string) : Prop :=
  key ≠ EmptyString ∧ hasChar newline key = false ∧
  hasInterpolation key = false.

Definition helloSource : list string := ["tr('Hello')"].

(** Only [fr.json] exists, and it translates [Hello]. *)
Definition frenchOnly : fileSystem :=
  {| stores := {[ "fr" := Record [("Hello", "Bonjour")] ]}; pending := None |}.

(** [en.json] holds an edited English text for [Hello]. *)
Definition editedEnglish : fileSystem :=
  {| stores := {[ "en" := Record [("Hello", "Hi there")] ]}; pending := None |}.

(** Only [fr.json] exists, and its text for [Hello] is one space. *)
Definition spaceFrenchOnly : fileSystem :=
  {| stores := {[ "fr" := Record [("Hello", " ")] ]}; pending := None |}.

(** [en.json] knows [Hello]; the French text for it is one space. *)
Definition spaceFrench : fileSystem :=
  {| stores := {[ "en" := Record [("Hello", "Hello")];
                  "fr" := Record [("Hello", " ")] ]};
     pending := None |}.

(** Every supported locale has a text for [Hello], and a batch written by
    an earlier run is still on disk. *)
Definition staleBatch : fileSystem :=
  {| stores := list_to_map ((λ locale, (locale, Record [("Hello", "Hallo")]))
                              <$> Update.SUPPORTED_LOCALES);
     pending := Some (Batch {[ "fr" := Translations {[ "Old label" := "Vieux" ]} ]}) |}.

(** [fr.json] exists but does not parse. *)
Definition brokenFrench : fileSystem :=
  {| stores := {[ "fr" := Unparsable ]}; pending := None |}.

Definition noFiles : fileSystem := {| stores := ∅; pending := None |}.

(** A completed batch for French. *)
Definition frenchData : gmap string batchValue :=
  {[ "fr" := Translations {[ "Hello" := "Bonjour" ]} ]}.

(** The French store and a completed batch for it. *)
Definition frenchBatch : fileSystem :=
  {| stores := {[ "fr" := Record [("Bye", "Au revoir"); ("Hello", EmptyString)] ]};
     pending := Some (Batch frenchData) |}.

(** A batch with one text translated and one text still blank. *)
Definition halfDoneData : gmap string batchValue :=
  {[ "fr" := Translations {[ "Hello" := "Bonjour" ]};
     "de" := Translations {[ "Hello" := " " ]} ]}.

Definition halfDoneBatch : fileSystem :=
  {| stores := {[ "fr" := Record [("Hello", EmptyString)];
                  "de" := Record [("Hello", EmptyString)] ]};
     pending := Some (Batch halfDoneData) |}.


(** ** Calls the scanner must find *)

(** The code unit just before the text that follows [pre], when the text
    before [pre] ended with [prev]. *)
Fixpoint lastOr (prev : option ascii) (pre : string) : option ascii :=
  match pre with
  | EmptyString => prev
  | String c pre' => lastOr (Some c) pre'
  end.

(** [TrCall content quote raw]: as [TrLiteral], and the [tr] is not the
    tail of a longer identifier. *)
Definition TrCall (content : string) (quote : ascii) (raw : string) : Prop :=
  ∃ pre ws1 ws2 rest,
    allSpace ws1 ∧ allSpace ws2 ∧
    from_option isWordChar false (lastOr None pre) = false ∧
    content = pre +:+ "tr" +:+ ws1 +:+ "(" +:+ ws2
              +:+ String quote (raw +:+ String quote rest).

(** A non-empty key read from a well-formed call. *)
Definition Found (content key : string) : Prop :=
  key ≠ EmptyString ∧
  ∃ quote raw,
    Scanner.isQuote quote = true ∧ TrCall content quote raw ∧ Body quote raw key.

(** ** The runtime lookup ([I18nContext.tsx]) *)

Module Runtime.
Section lookup.

(** [translation.replace(new RegExp(`{${paramKey}}`, "g"), String(paramValue))]:
    the text, the parameter name and the parameter value. The regular
    expression built from the name is not modelled. *)
Variable replaceParam : string → string → string → string.

(** [if (params) Object.entries(params).forEach(...)] *)
Definition applyParams (translation : string)
    (params : option (list (string * string))) : string :=
  match params with
  | None => translation
  | Some entries =>
      foldl (λ translation kv, replaceParam translation kv.1 kv.2)
            translation entries
  end.

(** The [tr] that [I18nProvider] builds from a locale's translations. *)
Definition tr (translations : gmap string string) (key : string)
    (params : option (list (string * string))) : string :=
  let translation :=
    match translations !! key with
    | Some text => if blankText text then key else text
    | None => key
    end in
  applyParams translation params.

(** The [tr] that [useTr] returns when there is no context. *)
Definition fallbackTr (key : string)
    (params : option (list (string * string))) : string :=
  applyParams key params.

End lookup.
End Runtime.

(** ** The text wrapper of [wrapExistingText.js] *)

Module Wrap.

(** [s.replace(/c/g, replacement)] for a one-character pattern. *)
Fixpoint replaceChar (c : ascii) (replacement : string) (s : string) : string :=
  match s with
  | EmptyString => EmptyString
  | String x s' =>
      if Ascii.eqb x c then replacement +:+ replaceChar c replacement s'
      else String x (replaceChar c replacement s')
  end.

(** [s.replace(/\s+/g, " ")]: every maximal run of whitespace becomes one
    space. [inRun] tells that the previous character was whitespace. *)
Fixpoint collapseFrom (inRun : bool) (s : string) : string :=
  match s with
  | EmptyString => EmptyString
  | String x s' =>
      if isSpace x then
        if inRun then collapseFrom true s'
        else String " "%char (collapseFrom true s')
      else String x (collapseFrom false s')
  end.

Definition collapseSpaces (s : string) : string := collapseFrom false s.

(** The text between the quotes that [wrapInTr] produces. *)
Definition safeText (text : string) : string :=
  let safeText := trim text in
  let safeText := replaceChar dquote (String backslash (String dquote EmptyString)) safeText in
  let safeText := replaceChar newline (String backslash (String "n"%char EmptyString)) safeText in
  let safeText := replaceChar "013"%char EmptyString safeText in
  collapseSpaces safeText.

Definition wrapInTr (text : string) : string :=
  "{tr(" +:+ String dquote (safeText text +:+ String dquote ")}").

End Wrap.

(** ** Directory traversal ([findSourceFiles]) *)

(** An entry of a directory: a regular file with its content, a
    directory with its entries, or something that is neither. *)
#[warnings="-register-all"]
Inductive dirEntry : Type :=
  | File (name : string) (content : string)
  | Directory (name : string) (entries : list dirEntry)
  | Special (name : string).

Module Traversal.

(** [name.endsWith(suffix)] *)
Definition endsWith (suffix name : string) : bool :=
  String.prefix (String.rev suffix) (String.rev name).

(** [/\.(ts|tsx|js|jsx)$/.test(entry)] *)
Definition isSourceName (entry : string) : bool :=
  endsWith ".ts" entry || endsWith ".tsx" entry
  || endsWith ".js" entry || endsWith ".jsx" entry.

(** [["node_modules", "build", ".git"].includes(entry)] *)
Definition isSkippedDirectory (entry : string) : bool :=
  bool_decide (entry ∈ ["node_modules"; "build"; ".git"]).

(** [scanDirectory]: [currentDir] is the path of the directory, as the
    list of names from the root; the result lists the files pushed, in
    order, each with its path and its content. *)
Fixpoint scanEntry (currentDir : list string) (entry : dirEntry)
    : list (list string * string) :=
  match entry with
  | File name content =>
      if isSourceName name then [(currentDir ++ [name], content)] else []
  | Directory name entries =>
      if isSkippedDirectory name then []
      else
        (fix scanDirectory (entries : list dirEntry) :=
           match entries with
           | [] => []
           | entry :: rest =>
               scanEntry (currentDir ++ [name]) entry ++ scanDirectory rest
           end) entries
  | Special _ => []
  end.

(** [findSourceFiles(dir)] on the entries of [dir]. *)
Definition findSourceFiles (dir : list string) (entries : list dirEntry)
    : list (list string * string) :=
  entries ≫= scanEntry dir.

(** [extractAllTrKeys] on a directory: the keys of the files found. *)
Definition extractAllTrKeysIn (dir : list string) (entries : list dirEntry)
    : list string :=
  Update.extractAllTrKeys (findSourceFiles dir entries).*2.

End Traversal.

(** [Finds dir entries path content]: [path] leads from [dir], through
    directories that are not skipped, to a regular file with a source
    name and with [content]. *)
Inductive Finds : list string → list dirEntry → list string → string → Prop :=
  | Finds_file dir entries name content :
      File name content ∈ entries →
      Traversal.isSourceName name = true →
      Finds dir entries (dir ++ [name]) content
  | Finds_directory dir entries name inner path content :
      Directory name inner ∈ entries →
      Traversal.isSkippedDirectory name = false →
      Finds (dir ++ [name]) inner path content →
      Finds dir entries path content.

(** What a batch lists under a locale: keys of the pass, in need of
    translation, with empty text; and at least one of them. *)
Definition ListedFor (locale : string) (existingKeys extractedKeys : list string)
    (current entries : gmap string string) : Prop :=
  entries ≠ ∅ ∧
  ∀ key text, entries !! key = Some text →
    text = EmptyString ∧ key ∈ extractedKeys ∧
    needsTranslation locale existingKeys current key = true.

(** ** The count a merge run reports *)

(** The entries of one property of the batch that the merge loop writes:
    all the non-blank ones when the locale's store loads, none otherwise. *)
Definition mergedOf (fs : fileSystem) (entry : string * batchValue) : nat :=
  match entry.2 with
  | NotAnObject => 0
  | Translations newTranslations =>
      match Merge.loadTranslationFile fs entry.1 with
      | None => 0
      | Some _ =>
          length (filter (λ kv, blankText kv.2 = false)
                         (map_to_list newTranslations))
      end
  end.

(** ** A batch completed by a translator *)

(** [Completes batch filled]: [filled] has a text for exactly the locales
    and keys of [batch], and none of its texts is blank. *)
Definition Completes (batch filled : gmap string (gmap string string)) : Prop :=
  dom filled = dom batch ∧
  ∀ locale entries,
    filled !! locale = Some entries →
    (∃ listed, batch !! locale = Some listed ∧ dom entries = dom listed) ∧
    ∀ key text, entries !! key = Some text → blankText text = false.

(** The files after a translator replaced the pending batch by [filled]. *)
Definition withBatch (fs : fileSystem)
    (filled : gmap string (gmap string string)) : fileSystem :=
  {| stores := stores fs; pending := Some (Batch (Translations <$> filled)) |}.

(** Every supported locale but French has a text for [Hello]. *)
Definition frenchMissing : fileSystem :=
  {| stores := list_to_map ((λ locale, (locale, Record [("Hello", "Hallo")]))
                              <$> filter (λ locale, locale ≠ "fr")
                                         Update.SUPPORTED_LOCALES);
     pending := None |}.

(** The batch computed for [frenchMissing], filled in. *)
Definition frenchFilled : gmap string (gmap string string) :=
  {[ "fr" := {[ "Hello" := "Bonjour" ]} ]}.

(** An application directory with one component, a style sheet and a
    vendored package. *)
Definition sampleApp : list dirEntry :=
  [ Directory "routes" [ File "index.tsx" "tr('Hello')"; File "index.css" "tr('no')" ];
    Directory "node_modules" [ File "lib.js" "tr('vendored')" ];
    Special "socket" ].

(** * Examples and proofs *)

Example scan_simple :
  Scanner.extractTrCallsFromFile "x = tr('Save changes'); y = tr ( `Bye` ); tr('Save changes')"
  = ["Save changes"; "Bye"].
Proof. vm_compute. reflexivity. Qed.

Example scan_skips :
  Scanner.extractTrCallsFromFile
    ("str('no'); tr(''); tr(`a${b}`); tr(x); tr('unterminated" +:+ nl +:+ "tr('ok')")
  = ["ok"].
Proof. vm_compute. reflexivity. Qed.

Example scan_nested :
  Scanner.extractTrCallsFromFile "tr(`say tr('x')`)" = ["say tr('x')"; "x"].
Proof. vm_compute. reflexivity. Qed.

(** ** Strings: basic facts *)

Section string_facts.
Implicit Types (s t : string) (c : ascii).

Lemma app_cons c s t : String c s +:+ t = String c (s +:+ t).
Proof. reflexivity. Qed.

Lemma app_empty_l s : EmptyString +:+ s = s.
Proof. reflexivity. Qed.

Lemma app_empty_r s : s +:+ EmptyString = s.
Proof. induction s as [|c s IH]; [done|]. by rewrite app_cons, IH. Qed.

Lemma app_assoc' s t u : (s +:+ t) +:+ u = s +:+ (t +:+ u).
Proof. induction s as [|c s IH]; [done|]. by rewrite !app_cons, IH. Qed.

Lemma snoc_app s c t : snoc s c +:+ t = s +:+ String c t.
Proof. unfold snoc. by rewrite app_assoc'. Qed.

Lemma app_length s t :
  String.length (s +:+ t) = String.length s + String.length t.
Proof. induction s as [|c s IH]; [done|]. rewrite app_cons. simpl. by rewrite IH. Qed.

Lemma truthy_nonempty s : truthy s = true ↔ s ≠ EmptyString.
Proof. destruct s; simpl; split; congruence. Qed.

Lemma trimStart_split s : ∃ ws, allSpace ws ∧ s = ws +:+ trimStart s.
Proof.
  induction s as [|c s (ws & Hws & Hs)]; simpl.
  - by exists EmptyString.
  - destruct (isSpace c) eqn:Hc.
    + exists (String c ws). split.
      * unfold allSpace. simpl. by rewrite Hc.
      * rewrite app_cons. by rewrite <- Hs.
    + by exists EmptyString.
Qed.

Lemma trimStart_empty_iff s : trimStart s = EmptyString ↔ allSpace s.
Proof.
  unfold allSpace. induction s as [|c s IH]; simpl; [done|].
  destruct (isSpace c); simpl; [done|]. split; congruence.
Qed.

Lemma trimStart_head s c t : trimStart s = String c t → isSpace c = false.
Proof.
  induction s as [|x s IH]; simpl; [done|].
  destruct (isSpace x) eqn:Hx; [done|]. by intros [= <- _].
Qed.

Lemma rev_app_empty s t :
  String.rev_app s t = EmptyString → s = EmptyString ∧ t = EmptyString.
Proof.
  revert t. induction s as [|c s IH]; intros t; simpl; [done|].
  by intros [_ [=]]%IH.
Qed.

Lemma onlySpaces_rev_app s t :
  onlySpaces (String.rev_app s t) = onlySpaces s && onlySpaces t.
Proof.
  revert t. induction s as [|c s IH]; intros t; simpl; [done|].
  rewrite IH. simpl. destruct (isSpace c), (onlySpaces s); done.
Qed.

(** [trim] leaves nothing exactly when the text is whitespace only. *)
Lemma trim_empty_iff s : trim s = EmptyString ↔ allSpace s.
Proof.
  split.
  - unfold trim, trimEnd, String.rev. intros [Hrev _]%rev_app_empty.
    apply trimStart_empty_iff in Hrev. unfold allSpace in Hrev.
    rewrite onlySpaces_rev_app, andb_true_r in Hrev.
    apply trimStart_empty_iff.
    destruct (trimStart s) as [|c t] eqn:Hs; [done|].
    apply trimStart_head in Hs. simpl in Hrev. by rewrite Hs in Hrev.
  - intros Hs%trimStart_empty_iff. unfold trim. by rewrite Hs.
Qed.

Lemma blankText_spec s : blankText s = true ↔ allSpace s.
Proof.
  unfold blankText. rewrite orb_true_iff, String.eqb_eq, trim_empty_iff.
  destruct s; simpl; [by split; [|left]|].
  split; [by intros [?|?]|by right].
Qed.

Lemma hasChar_app c s t : hasChar c (s +:+ t) = hasChar c s || hasChar c t.
Proof.
  induction s as [|x s IH]; [done|].
  rewrite app_cons. simpl. rewrite IH. by rewrite orb_assoc.
Qed.
End string_facts.

(** ** The scanner: accepted literals *)

Section scanner_facts.
Import Scanner.
Implicit Types (s t raw key content : string) (c quote : ascii).

Lemma eqb_false_ne c1 c2 : Ascii.eqb c1 c2 = false → c1 ≠ c2.
Proof. intros H ->. by rewrite Ascii.eqb_refl in H. Qed.

(** The inner loop, from either of its two states: when it stops at the
    closing quote with both flags down, the flags were down on entry,
    and the text consumed is a [Body] for what was added to [value]. *)
Lemma readLiteral_Body quote s : ∀ value hasNewline hasTemplate escaped v,
  readLiteral quote s value hasNewline hasTemplate escaped = Some (v, false, false) →
  hasNewline = false ∧ hasTemplate = false ∧
  if escaped then
    ∃ c raw key rest,
      s = String c (raw +:+ String quote rest) ∧
      v = value +:+ String c key ∧ Body quote raw key
  else
    ∃ raw key rest,
      s = raw +:+ String quote rest ∧ v = value +:+ key ∧ Body quote raw key.
Proof.
  induction s as [|char s IH]; intros value hn ht escaped v Hread; [done|].
  simpl in Hread. destruct escaped.
  - apply IH in Hread as (-> & -> & raw & key & rest & -> & -> & HB).
    do 2 (split; [done|]). exists char, raw, key, rest.
    by rewrite snoc_app.
  - destruct (Ascii.eqb char backslash) eqn:Hbs.
    { apply Ascii.eqb_eq in Hbs as ->.
      apply IH in Hread as (-> & -> & c & raw & key & rest & -> & -> & HB).
      do 2 (split; [done|]).
      exists (String backslash (String c raw)), (String c key), rest.
      split; [done|]. split; [done|]. by constructor. }
    destruct (Ascii.eqb char quote) eqn:Hq.
    { apply Ascii.eqb_eq in Hq as ->.
      destruct (Ascii.eqb quote backtick && Ascii.eqb quote dollar && _);
        simplify_eq.
      do 2 (split; [done|]).
      exists EmptyString, EmptyString, s.
      rewrite app_empty_r. split; [done|]. split; [done|]. constructor. }
    apply IH in Hread as (Hn & Ht & raw & key & rest & -> & -> & HB).
    destruct (Ascii.eqb char newline) eqn:Hnl; [done|].
    destruct (Ascii.eqb quote backtick && Ascii.eqb char dollar && _) eqn:Htpl;
      [done|].
    do 2 (split; [done|]).
    exists (String char raw), (String char key), rest.
    rewrite snoc_app. split; [done|]. split; [done|].
    constructor; auto using eqb_false_ne.
    intros (-> & -> & Hraw). simpl in Htpl.
    destruct raw as [|x raw]; [done|].
    rewrite app_cons in Htpl. simpl in Hraw. by rewrite Hraw in Htpl.
Qed.

Lemma literalAt_Body after key :
  literalAt after = Some key →
  key ≠ EmptyString ∧
  ∃ quote raw rest,
    isQuote quote = true ∧
    trimStart after = String quote (raw +:+ String quote rest) ∧
    Body quote raw key.
Proof.
  unfold literalAt. destruct (trimStart after) as [|quote s]; [done|].
  destruct (isQuote quote) eqn:Hq; [|done].
  destruct (readLiteral _ _ _ _ _ _) as [[[v hn] ht]|] eqn:Hread; [|done].
  destruct (truthy v) eqn:Hv; [|done].
  destruct hn; [done|]. destruct ht; [done|]. simpl. intros [= ->].
  apply readLiteral_Body in Hread as (_ & _ & raw & k & rest & -> & -> & HB).
  split; [by apply truthy_nonempty|]. by exists quote, raw, rest.
Qed.

Lemma matchHere_split prev s after :
  matchHere prev s = Some after →
  ∃ ws, allSpace ws ∧ s = "tr" +:+ ws +:+ "(" +:+ after.
Proof.
  unfold matchHere. destruct (wordBoundary prev s); [|done].
  destruct s as [|c1 [|c2 rest]]; [done| |].
  { by repeat case_match. }
  intros H.
  assert (c1 = "t"%char ∧ c2 = "r"%char ∧
          trimStart rest = String lparen after) as (-> & -> & Hrest).
  { repeat case_match; simplify_eq; done. }
  destruct (trimStart_split rest) as (ws & Hws & Heq).
  exists ws. split; [done|]. rewrite Hrest in Heq. by rewrite Heq at 1.
Qed.

Lemma exec_split s : ∀ prev after,
  exec prev s = Some after →
  ∃ pre ws, allSpace ws ∧ s = pre +:+ "tr" +:+ ws +:+ "(" +:+ after.
Proof.
  induction s as [|c s IH]; intros prev after; simpl.
  - destruct (matchHere prev EmptyString) eqn:Hm; [|done].
    intros [= ->]. apply matchHere_split in Hm as (ws & ? & ?).
    by exists EmptyString, ws.
  - destruct (matchHere prev (String c s)) eqn:Hm.
    + intros [= ->]. apply matchHere_split in Hm as (ws & ? & ?).
      by exists EmptyString, ws.
    + intros (pre & ws & ? & ->)%IH. by exists (String c pre), ws.
Qed.

Lemma exec_shorter s prev after :
  exec prev s = Some after → String.length after < String.length s.
Proof.
  intros (pre & ws & _ & ->)%exec_split.
  rewrite !app_length. simpl. lia.
Qed.

(** Running the loop with more fuel than the text is long changes
    nothing: the loop always ends because the search finds no further
    match. *)
Lemma scanLoop_fuel fuel : ∀ prev s keys,
  String.length s ≤ fuel →
  scanLoop fuel prev s keys = scanLoop (String.length s) prev s keys.
Proof.
  induction fuel as [fuel IH] using lt_wf_ind. intros prev s keys Hlen.
  destruct fuel as [|fuel].
  { by replace (String.length s) with 0 by lia. }
  destruct (String.length s) as [|n] eqn:Hs.
  { destruct s; [|done]. simpl. unfold matchHere. by destruct (wordBoundary prev _). }
  simpl. destruct (exec prev s) as [after|] eqn:Hex; [|done].
  apply exec_shorter in Hex.
  rewrite IH by lia. symmetry. rewrite IH by lia. done.
Qed.

Lemma scanLoop_Accepted content fuel : ∀ prev s keys pre,
  content = pre +:+ s →
  Forall (Accepted content) keys →
  Forall (Accepted content) (scanLoop fuel prev s keys).
Proof.
  induction fuel as [|fuel IH]; intros prev s keys pre Hcontent Hkeys; [done|].
  simpl. destruct (exec prev s) as [after|] eqn:Hex; [|done].
  apply exec_split in Hex as (pre' & ws1 & Hws1 & ->).
  eapply (IH _ _ _ (pre +:+ pre' +:+ "tr" +:+ ws1 +:+ "(")).
  { by rewrite Hcontent, !app_assoc'. }
  destruct (literalAt after) as [key|] eqn:Hlit; [|done].
  unfold pushUnique. case_bool_decide; [done|].
  apply Forall_app. split; [done|]. apply Forall_singleton.
  apply literalAt_Body in Hlit as (Hne & quote & raw & rest & Hq & Hafter & HB).
  split; [done|]. exists quote, raw. split; [done|]. split; [|done].
  destruct (trimStart_split after) as (ws2 & Hws2 & Heq).
  exists (pre +:+ pre'), ws1, ws2, rest. do 2 (split; [done|]).
  rewrite Hcontent, Heq, Hafter, !app_assoc'. done.
Qed.

Lemma Body_plain_text quote raw key :
  Body quote raw key → hasChar backslash raw = false →
  key = raw ∧ hasChar newline key = false ∧
  (quote = backtick → hasInterpolation key = false).
Proof.
  induction 1 as [|c raw key HB IH|c raw key Hbs Hq Hnl Htpl HB IH]; simpl.
  - done.
  - done.
  - intros [_ Hraw]%orb_false_elim.
    destruct (IH Hraw) as (-> & Hn & Hi).
    split; [done|]. split.
    + apply orb_false_intro; [|done].
      by apply Ascii.eqb_neq.
    + intros ->. destruct raw as [|y raw]; [done|].
      apply orb_false_intro; [|by apply Hi].
      apply andb_false_iff.
      destruct (Ascii.eqb c dollar) eqn:Hc; [|by left]. right.
      apply Ascii.eqb_eq in Hc as ->.
      apply not_true_is_false. intros Hy. apply Htpl. done.
Qed.
(** A newline in a key was escaped in the literal. *)
Lemma Body_newline_escaped quote raw key :
  Body quote raw key → hasChar newline key = true →
  hasPair backslash newline raw = true.
Proof.
  induction 1 as [|c raw key HB IH|c raw key Hbs Hq Hnl Htpl HB IH]; simpl.
  - done.
  - destruct (Ascii.eqb c newline) eqn:Hc; [done|]. simpl.
    intros Hkey%IH. rewrite Hkey. by rewrite !orb_true_r.
  - intros [Hc|Hkey]%orb_true_iff.
    + by apply Ascii.eqb_eq in Hc.
    + rewrite (IH Hkey). by rewrite orb_true_r.
Qed.
End scanner_facts.

(** ** Extracted keys *)

Section extracted_keys.
Import Scanner.

Example escapedNewlineSource_keys :
  extractTrCallsFromFile escapedNewlineSource = ["a" +:+ nl +:+ "b"].
Proof. vm_compute. reflexivity. Qed.

Example quotedDollarSource_keys :
  extractTrCallsFromFile quotedDollarSource = ["Hello ${name}"].
Proof. vm_compute. reflexivity. Qed.

(** C3, as stated, fails. The check for [$] followed by [{] is only made
    inside backticks, so a single-quoted literal yields a key that holds
    the sequence; and an escaped character is copied without any check,
    so a backslash before a line feed yields a key that holds the line
    feed. *)
Lemma extracted_key_not_clean :
  ¬ (∀ key, key ∈ extractTrCallsFromFile quotedDollarSource → CleanKey key) ∧
  ¬ (∀ key, key ∈ extractTrCallsFromFile escapedNewlineSource → CleanKey key).
Proof.
  split; intros H.
  - destruct (H "Hello ${name}") as (_ & _ & Hinterp).
    + rewrite quotedDollarSource_keys. apply list_elem_of_here.
    + vm_compute in Hinterp. discriminate.
  - destruct (H ("a" +:+ nl +:+ "b")) as (_ & Hnl & _).
    + rewrite escapedNewlineSource_keys. apply list_elem_of_here.
    + vm_compute in Hnl. discriminate.
Qed.

(** C3 (amended): every key the scanner extracts is non-empty and is
    read from a quoted literal that follows [tr(] in the source, up to the
    first unescaped closing quote, with each escaping backslash dropped.
    The key holds a raw newline only where the literal has a backslash
    directly before that newline, and a key read between backticks holds
    [$] directly followed by [{] only if the literal holds a backslash
    (keys read between single or double quotes may hold that sequence). *)
Theorem extracted_key_accepted content key :
  key ∈ extractTrCallsFromFile content →
  key ≠ EmptyString ∧
  ∃ quote raw,
    isQuote quote = true ∧ TrLiteral content quote raw ∧ Body quote raw key ∧
    (hasChar newline key = true → hasPair backslash newline raw = true) ∧
    (quote = backtick → hasInterpolation key = true →
     hasChar backslash raw = true).
Proof.
  intros Hin.
  assert (Forall (Accepted content) (extractTrCallsFromFile content)) as Hall.
  { by apply (scanLoop_Accepted content _ _ _ _ EmptyString). }
  rewrite Forall_forall in Hall.
  destruct (Hall key Hin) as (Hne & quote & raw & Hq & Hlit & HB).
  split; [done|]. exists quote, raw.
  do 3 (split; [done|]). split.
  - by apply (Body_newline_escaped quote).
  - intros -> Hinterp. apply not_false_is_true. intros Hbs.
    destruct (Body_plain_text _ _ _ HB Hbs) as (_ & _ & Hnone).
    rewrite Hnone in Hinterp; done.
Qed.

Lemma extracted_key_accepted_witness :
  "Bye" ≠ EmptyString ∧
  ∃ quote raw,
    isQuote quote = true ∧ TrLiteral "y = tr ( `Bye` )" quote raw ∧
    Body quote raw "Bye" ∧
    (hasChar newline "Bye" = true → hasPair backslash newline raw = true) ∧
    (quote = backtick → hasInterpolation "Bye" = true →
     hasChar backslash raw = true).
Proof.
  apply (extracted_key_accepted "y = tr ( `Bye` )" "Bye").
  vm_compute. apply list_elem_of_here.
Defined.
End extracted_keys.

(** ** Objects, sorting and the record on disk *)

Section store_facts.
Implicit Types (m : gmap string string) (keys : list string) (key : string).

Lemma elem_of_objectKeys {A} (o : gmap string A) key :
  key ∈ objectKeys o ↔ is_Some (o !! key).
Proof.
  unfold objectKeys. rewrite list_elem_of_fmap. split.
  - intros ([k v] & -> & Hin). apply elem_of_map_to_list in Hin. by exists v.
  - intros [v Hv]. exists (key, v). split; [done|]. by apply elem_of_map_to_list.
Qed.

Lemma NoDup_objectKeys {A} (o : gmap string A) : NoDup (objectKeys o).
Proof. apply NoDup_fst_map_to_list. Qed.

Lemma objectKeys_empty_iff {A} (o : gmap string A) :
  length (objectKeys o) = 0 ↔ o = ∅.
Proof.
  unfold objectKeys. rewrite length_fmap, <- map_to_list_empty_iff. split.
  - apply nil_length_inv.
  - by intros ->.
Qed.

Lemma sortKeys_perm keys : sortKeys keys ≡ₚ keys.
Proof. apply merge_sort_Permutation. Qed.

Lemma elem_of_sortKeys keys key : key ∈ sortKeys keys ↔ key ∈ keys.
Proof. by rewrite sortKeys_perm. Qed.

Lemma sortKeys_sorted keys : Sorted String.le (sortKeys keys).
Proof. apply (Sorted_merge_sort String.le). Qed.

Lemma NoDup_sortKeys keys : NoDup keys → NoDup (sortKeys keys).
Proof. by rewrite sortKeys_perm. Qed.

(** Two duplicate-free key lists with the same members sort to the same
    list. *)
Lemma sortKeys_unique keys1 keys2 :
  NoDup keys1 → NoDup keys2 → (∀ key, key ∈ keys1 ↔ key ∈ keys2) →
  sortKeys keys1 = sortKeys keys2.
Proof.
  intros H1 H2 Hmem.
  apply (Sorted_unique String.le); [apply sortKeys_sorted..|].
  rewrite !sortKeys_perm. by apply NoDup_Permutation.
Qed.

Lemma sortKeys_sorted_id keys :
  Sorted String.le keys → sortKeys keys = keys.
Proof.
  intros Hs. apply (Sorted_unique String.le);
    [apply sortKeys_sorted|done|apply sortKeys_perm].
Qed.

Lemma parse_insert_keys (f : string → string) keys : ∀ m0 key,
  foldl (λ m kv, <[kv.1 := kv.2]> m) m0 ((λ k, (k, f k)) <$> keys) !! key
  = if bool_decide (key ∈ keys) then Some (f key) else m0 !! key.
Proof.
  induction keys as [|k keys IH]; intros m0 key.
  - by rewrite bool_decide_eq_false_2 by apply not_elem_of_nil.
  - rewrite fmap_cons. cbn [foldl]. rewrite IH. cbn [fst snd]. destruct (decide (key ∈ keys)) as [Hin|Hin].
    + rewrite !bool_decide_eq_true_2; [done|by right|done].
    + rewrite (bool_decide_eq_false_2 (key ∈ keys)) by done.
      destruct (decide (k = key)) as [->|Hne].
      * rewrite lookup_insert_eq. by rewrite bool_decide_eq_true_2 by by left.
      * rewrite lookup_insert_ne by done.
        rewrite bool_decide_eq_false_2; [done|].
        by intros [->|?]%elem_of_cons.
Qed.

(** Reading back what [saveTranslationFile] wrote gives the store that
    was saved. *)
Lemma parseRecord_savedEntries m : parseRecord (savedEntries m) = m.
Proof.
  apply map_eq. intros key. unfold parseRecord, savedEntries.
  rewrite parse_insert_keys. case_bool_decide as Hin.
  - apply elem_of_sortKeys, elem_of_objectKeys in Hin as [v Hv].
    by rewrite (lookup_total_correct _ _ _ Hv).
  - rewrite lookup_empty. symmetry. apply eq_None_not_Some.
    by rewrite <- elem_of_objectKeys, <- elem_of_sortKeys.
Qed.

Lemma savedEntries_keys m : (savedEntries m).*1 = sortKeys (objectKeys m).
Proof.
  unfold savedEntries. rewrite <- list_fmap_compose.
  apply list_fmap_id.
Qed.
End store_facts.

(** ** One pass over the extracted keys *)

Section rebuild_facts.
Import Update.
Implicit Types (locale key : string) (existingKeys extractedKeys : list string)
  (current updated : gmap string string)
  (toTranslate : gmap string (gmap string string)).

Lemma rebuildKey_fst locale existingKeys current acc key :
  (rebuildKey locale existingKeys current acc key).1
  = <[key := rebuiltText locale existingKeys current key]> acc.1.
Proof.
  unfold rebuildKey, rebuiltText.
  repeat case_bool_decide; done.
Qed.

Lemma rebuildKey_snd locale existingKeys current acc key :
  (rebuildKey locale existingKeys current acc key).2
  = if needsTranslation locale existingKeys current key
    then markPending locale key acc.2 else acc.2.
Proof.
  unfold rebuildKey, needsTranslation.
  repeat case_bool_decide; simpl; done.
Qed.

(** The store built by one pass. *)
Lemma rebuild_lookup locale existingKeys current extractedKeys : ∀ acc key,
  (foldl (rebuildKey locale existingKeys current) acc extractedKeys).1 !! key
  = if bool_decide (key ∈ extractedKeys)
    then Some (rebuiltText locale existingKeys current key)
    else acc.1 !! key.
Proof.
  induction extractedKeys as [|k keys IH]; intros acc key.
  - by rewrite bool_decide_eq_false_2 by apply not_elem_of_nil.
  - cbn [foldl]. rewrite IH, rebuildKey_fst.
    destruct (decide (key ∈ keys)) as [Hin|Hin].
    + rewrite !bool_decide_eq_true_2; [done|by right|done].
    + rewrite (bool_decide_eq_false_2 (key ∈ keys)) by done.
      destruct (decide (k = key)) as [->|Hne].
      * rewrite lookup_insert_eq. by rewrite bool_decide_eq_true_2 by by left.
      * rewrite lookup_insert_ne by done.
        rewrite bool_decide_eq_false_2; [done|].
        by intros [->|?]%elem_of_cons.
Qed.

(** The store built by one pass does not depend on the batch collected
    so far. *)
Lemma rebuild_store_indep locale existingKeys current extractedKeys t1 t2 :
  (foldl (rebuildKey locale existingKeys current) (∅, t1) extractedKeys).1
  = (foldl (rebuildKey locale existingKeys current) (∅, t2) extractedKeys).1.
Proof. apply map_eq. intros key. by rewrite !rebuild_lookup. Qed.

Lemma markPending_lookup_ne locale locale' key toTranslate :
  locale ≠ locale' →
  markPending locale key toTranslate !! locale' = toTranslate !! locale'.
Proof. intros. unfold markPending. by rewrite lookup_insert_ne. Qed.

(** The batch after one pass: other locales are as before; under the
    locale itself a key is listed, with empty text, exactly when it was
    listed before or the pass found it in need of translation. *)
Lemma rebuild_batch_other locale existingKeys current extractedKeys locale' :
  locale ≠ locale' → ∀ acc,
  (foldl (rebuildKey locale existingKeys current) acc extractedKeys).2 !! locale'
  = acc.2 !! locale'.
Proof.
  intros Hne. induction extractedKeys as [|k keys IH]; intros acc; [done|].
  cbn [foldl]. rewrite IH, rebuildKey_snd.
  destruct (needsTranslation _ _ _ _); [|done].
  by apply markPending_lookup_ne.
Qed.

Lemma rebuild_batch_marked locale existingKeys current extractedKeys key : ∀ acc,
  key ∈ extractedKeys →
  needsTranslation locale existingKeys current key = true →
  ∃ entries,
    (foldl (rebuildKey locale existingKeys current) acc extractedKeys).2 !! locale
    = Some entries ∧ entries !! key = Some EmptyString.
Proof.
  assert (∀ keys acc entries,
    acc.2 !! locale = Some entries → entries !! key = Some EmptyString →
    ∃ entries',
      (foldl (rebuildKey locale existingKeys current) acc keys).2 !! locale
      = Some entries' ∧ entries' !! key = Some EmptyString) as Hkeep.
  { induction keys as [|k keys IH]; intros acc entries Hacc Hkey; [by eauto|].
    cbn [foldl].
    destruct (needsTranslation locale existingKeys current k) eqn:Hk.
    - eapply (IH _ (<[k := EmptyString]> entries)).
      + rewrite rebuildKey_snd, Hk. unfold markPending.
        by rewrite lookup_insert_eq, Hacc.
      + destruct (decide (k = key)) as [->|?];
          [by rewrite lookup_insert_eq|by rewrite lookup_insert_ne].
    - eapply IH; [|done]. by rewrite rebuildKey_snd, Hk. }
  induction extractedKeys as [|k keys IH]; intros acc Hin Hneeds.
  { by apply not_elem_of_nil in Hin. }
  cbn [foldl]. apply elem_of_cons in Hin as [->|Hin]; [|by apply IH].
  eapply Hkeep.
  - rewrite rebuildKey_snd, Hneeds. unfold markPending.
    by rewrite lookup_insert_eq.
  - by rewrite lookup_insert_eq.
Qed.

(** A pass that finds no key in need of translation leaves the batch as
    it was. *)
Lemma rebuild_batch_unchanged locale existingKeys current extractedKeys :
  (∀ key, key ∈ extractedKeys →
     needsTranslation locale existingKeys current key = false) →
  ∀ acc,
  (foldl (rebuildKey locale existingKeys current) acc extractedKeys).2 = acc.2.
Proof.
  induction extractedKeys as [|k keys IH]; intros Hnone acc; [done|].
  cbn [foldl]. rewrite IH.
  - rewrite rebuildKey_snd, Hnone; [done|by left].
  - intros key Hin. apply Hnone. by right.
Qed.
End rebuild_facts.

(** ** The loop over the supported locales *)

Section locales_facts.
Import Update.
Implicit Types (locale key : string) (existingKeys extractedKeys locales : list string)
  (fs : fileSystem) (toTranslate : gmap string (gmap string string)).

Lemma NoDup_SUPPORTED_LOCALES : NoDup SUPPORTED_LOCALES.
Proof. apply (bool_decide_unpack _). vm_compute. exact I. Qed.

Lemma canonical_supported : CANONICAL_LOCALE ∈ SUPPORTED_LOCALES.
Proof. apply list_elem_of_here. Qed.

Lemma load_save_eq locale translations fs :
  loadTranslationFile (saveTranslationFile locale translations fs) locale
  = translations.
Proof.
  unfold loadTranslationFile, saveTranslationFile. simpl.
  rewrite lookup_insert_eq. apply parseRecord_savedEntries.
Qed.

Lemma load_save_ne locale locale' translations fs :
  locale ≠ locale' →
  loadTranslationFile (saveTranslationFile locale translations fs) locale'
  = loadTranslationFile fs locale'.
Proof.
  intros. unfold loadTranslationFile, saveTranslationFile. simpl.
  by rewrite lookup_insert_ne.
Qed.

Lemma rebuildLocale_fst extractedKeys existingKeys acc locale :
  (rebuildLocale extractedKeys existingKeys acc locale).1
  = saveTranslationFile locale
      (rebuiltStore extractedKeys existingKeys acc.1 locale) acc.1.
Proof.
  unfold rebuildLocale, rebuiltStore. simpl. f_equal.
  apply rebuild_store_indep.
Qed.

Lemma rebuiltStore_load extractedKeys existingKeys fs fs' locale :
  loadTranslationFile fs' locale = loadTranslationFile fs locale →
  rebuiltStore extractedKeys existingKeys fs' locale
  = rebuiltStore extractedKeys existingKeys fs locale.
Proof. unfold rebuiltStore. by intros ->. Qed.

(** The files after the loop: every locale of the list holds the record
    of its rebuilt store, every other file is untouched. *)
Lemma locales_stores extractedKeys existingKeys locales :
  NoDup locales → ∀ acc locale,
  stores (foldl (rebuildLocale extractedKeys existingKeys) acc locales).1 !! locale
  = if bool_decide (locale ∈ locales)
    then Some (Record (savedEntries
                 (rebuiltStore extractedKeys existingKeys acc.1 locale)))
    else stores acc.1 !! locale.
Proof.
  induction 1 as [|l locales Hl _ IH]; intros acc locale.
  - by rewrite bool_decide_eq_false_2 by apply not_elem_of_nil.
  - cbn [foldl]. rewrite IH, rebuildLocale_fst.
    destruct (decide (locale ∈ locales)) as [Hin|Hin].
    + rewrite !bool_decide_eq_true_2; [|by right|done].
      assert (l ≠ locale) by (by intros ->).
      do 3 f_equal. apply rebuiltStore_load. by apply load_save_ne.
    + rewrite (bool_decide_eq_false_2 (locale ∈ locales)) by done.
      unfold saveTranslationFile at 1. simpl.
      destruct (decide (l = locale)) as [->|Hne].
      * rewrite lookup_insert_eq. by rewrite bool_decide_eq_true_2 by by left.
      * rewrite lookup_insert_ne by done.
        rewrite bool_decide_eq_false_2; [done|].
        by intros [->|?]%elem_of_cons.
Qed.

Lemma locales_pending extractedKeys existingKeys locales : ∀ acc,
  pending (foldl (rebuildLocale extractedKeys existingKeys) acc locales).1
  = pending acc.1.
Proof.
  induction locales as [|l locales IH]; intros acc; [done|].
  cbn [foldl]. by rewrite IH.
Qed.

Lemma locales_load_other extractedKeys existingKeys locales locale :
  locale ∉ locales → ∀ acc,
  loadTranslationFile
    (foldl (rebuildLocale extractedKeys existingKeys) acc locales).1 locale
  = loadTranslationFile acc.1 locale.
Proof.
  intros Hnot. induction locales as [|l locales IH]; intros acc; [done|].
  cbn [foldl]. apply not_elem_of_cons in Hnot as [Hne Hnot].
  rewrite IH by done. rewrite rebuildLocale_fst. by apply load_save_ne.
Qed.

Lemma locales_batch_other extractedKeys existingKeys locales locale :
  locale ∉ locales → ∀ acc,
  (foldl (rebuildLocale extractedKeys existingKeys) acc locales).2 !! locale
  = acc.2 !! locale.
Proof.
  intros Hnot. induction locales as [|l locales IH]; intros acc; [done|].
  cbn [foldl]. apply not_elem_of_cons in Hnot as [Hne Hnot].
  rewrite IH by done. unfold rebuildLocale. simpl.
  by rewrite rebuild_batch_other.
Qed.

(** A key that a locale's pass finds in need of translation is listed
    under that locale, with empty text, in the batch the loop returns. *)
Lemma locales_batch_marked extractedKeys existingKeys locales locale key :
  NoDup locales → locale ∈ locales → key ∈ extractedKeys → ∀ acc,
  needsTranslation locale existingKeys (loadTranslationFile acc.1 locale) key = true →
  ∃ entries,
    (foldl (rebuildLocale extractedKeys existingKeys) acc locales).2 !! locale
    = Some entries ∧ entries !! key = Some EmptyString.
Proof.
  intros Hnd Hin Hkey. induction Hnd as [|l locales Hl Hnd IH]; intros acc Hneeds.
  { by apply not_elem_of_nil in Hin. }
  cbn [foldl]. apply elem_of_cons in Hin as [->|Hin].
  - rewrite locales_batch_other by done. unfold rebuildLocale. simpl.
    by apply rebuild_batch_marked.
  - apply IH; [done|]. rewrite rebuildLocale_fst.
    rewrite load_save_ne; [done|]. by intros ->.
Qed.

(** When no pass finds a key in need of translation, the loop returns
    the batch it started from. *)
Lemma locales_batch_unchanged extractedKeys existingKeys locales :
  NoDup locales → ∀ acc,
  (∀ locale key, locale ∈ locales → key ∈ extractedKeys →
     needsTranslation locale existingKeys (loadTranslationFile acc.1 locale) key
     = false) →
  (foldl (rebuildLocale extractedKeys existingKeys) acc locales).2 = acc.2.
Proof.
  induction 1 as [|l locales Hl Hnd IH]; intros acc Hnone; [done|].
  cbn [foldl]. rewrite IH.
  - unfold rebuildLocale. simpl. apply (rebuild_batch_unchanged _ _ _ _).
    intros key Hkey. apply Hnone; [by left|done].
  - intros locale key Hin Hkey. rewrite rebuildLocale_fst.
    rewrite load_save_ne by (by intros ->).
    apply Hnone; [by right|done].
Qed.
End locales_facts.

(** ** A synchronization run *)

Section main_facts.
Import Scanner Update.
Implicit Types (locale key : string) (sources : list string) (fs : fileSystem).

Lemma pushUnique_NoDup keys value : NoDup keys → NoDup (pushUnique keys value).
Proof.
  intros Hnd. unfold pushUnique. case_bool_decide; [done|].
  apply NoDup_app. split; [done|]. split; [|apply NoDup_singleton].
  intros x Hx ->%list_elem_of_singleton. done.
Qed.

Lemma foldl_pushUnique_NoDup values : ∀ keys,
  NoDup keys → NoDup (foldl pushUnique keys values).
Proof.
  induction values as [|v values IH]; intros keys Hnd; [done|].
  cbn [foldl]. by apply IH, pushUnique_NoDup.
Qed.

Lemma extractAllTrKeys_NoDup sources : NoDup (extractAllTrKeys sources).
Proof.
  unfold extractAllTrKeys. apply NoDup_sortKeys.
  generalize (@nil string) (NoDup_nil_2 (A:=string)).
  induction sources as [|content sources IH]; intros keys Hnd; [done|].
  cbn [foldl]. by apply IH, foldl_pushUnique_NoDup.
Qed.

Lemma extractAllTrKeys_sorted sources :
  Sorted String.le (extractAllTrKeys sources).
Proof. apply sortKeys_sorted. Qed.

Lemma rebuiltStore_lookup extractedKeys existingKeys fs locale key :
  rebuiltStore extractedKeys existingKeys fs locale !! key
  = if bool_decide (key ∈ extractedKeys)
    then Some (rebuiltText locale existingKeys (loadTranslationFile fs locale) key)
    else None.
Proof. unfold rebuiltStore. by rewrite rebuild_lookup. Qed.

(** The run's result in terms of the loop over the locales. *)
Lemma main_final sources fs :
  stores (final (main sources fs))
  = stores (foldl (rebuildLocale (extractAllTrKeys sources)
                     (objectKeys (loadTranslationFile fs CANONICAL_LOCALE)))
                  (fs, ∅) SUPPORTED_LOCALES).1 ∧
  pending (final (main sources fs))
  = (if bool_decide (computedBatch sources fs = ∅) then pending fs
     else Some (Batch (Translations <$> computedBatch sources fs))) ∧
  upToDate (main sources fs) = bool_decide (computedBatch sources fs = ∅).
Proof.
  rewrite <- (locales_pending (extractAllTrKeys sources)
    (objectKeys (loadTranslationFile fs CANONICAL_LOCALE))
    SUPPORTED_LOCALES (fs, ∅)).
  unfold main, computedBatch. cbv zeta.
  generalize (foldl (rebuildLocale (extractAllTrKeys sources)
                (objectKeys (loadTranslationFile fs CANONICAL_LOCALE)))
             (fs, ∅) SUPPORTED_LOCALES).
  intros [fs' toTranslate]. cbn [fst snd].
  destruct (decide (toTranslate = ∅)) as [Hempty|Hne].
  - rewrite bool_decide_eq_false_2.
    + by rewrite !bool_decide_eq_true_2 by done.
    + apply objectKeys_empty_iff in Hempty. lia.
  - rewrite bool_decide_eq_true_2.
    + by rewrite !bool_decide_eq_false_2.
    + rewrite <- objectKeys_empty_iff in Hne. lia.
Qed.

Lemma main_stores sources fs locale :
  stores (final (main sources fs)) !! locale
  = if bool_decide (locale ∈ SUPPORTED_LOCALES)
    then Some (Record (savedEntries
                 (rebuiltStore (extractAllTrKeys sources)
                    (objectKeys (loadTranslationFile fs CANONICAL_LOCALE))
                    fs locale)))
    else stores fs !! locale.
Proof.
  rewrite (proj1 (main_final sources fs)).
  apply (locales_stores _ _ _ NoDup_SUPPORTED_LOCALES (fs, ∅)).
Qed.

Lemma main_load sources fs locale :
  locale ∈ SUPPORTED_LOCALES →
  loadTranslationFile (final (main sources fs)) locale
  = rebuiltStore (extractAllTrKeys sources)
      (objectKeys (loadTranslationFile fs CANONICAL_LOCALE)) fs locale.
Proof.
  intros Hin. unfold loadTranslationFile at 1.
  rewrite main_stores, bool_decide_eq_true_2 by done.
  apply parseRecord_savedEntries.
Qed.

(** The text a run leaves under a key of a supported locale. *)
Lemma main_lookup sources fs locale key :
  locale ∈ SUPPORTED_LOCALES →
  loadTranslationFile (final (main sources fs)) locale !! key
  = if bool_decide (key ∈ extractAllTrKeys sources)
    then Some (rebuiltText locale
                 (objectKeys (loadTranslationFile fs CANONICAL_LOCALE))
                 (loadTranslationFile fs locale) key)
    else None.
Proof. intros Hin. by rewrite main_load, rebuiltStore_lookup. Qed.

Lemma main_pending sources fs :
  pending (final (main sources fs))
  = if bool_decide (computedBatch sources fs = ∅)
    then pending fs
    else Some (Batch (Translations <$> computedBatch sources fs)).
Proof. apply main_final. Qed.

Lemma main_upToDate sources fs :
  upToDate (main sources fs) = bool_decide (computedBatch sources fs = ∅).
Proof. apply main_final. Qed.

Lemma computedBatch_eq sources fs :
  computedBatch sources fs
  = (foldl (rebuildLocale (extractAllTrKeys sources)
              (objectKeys (loadTranslationFile fs CANONICAL_LOCALE)))
           (fs, ∅) SUPPORTED_LOCALES).2.
Proof. reflexivity. Qed.

(** The computed batch is empty exactly when no supported locale has an
    extracted key in need of translation. *)
Lemma computedBatch_empty_iff sources fs :
  computedBatch sources fs = ∅ ↔
  ∀ locale key,
    locale ∈ SUPPORTED_LOCALES → key ∈ extractAllTrKeys sources →
    needsTranslation locale
      (objectKeys (loadTranslationFile fs CANONICAL_LOCALE))
      (loadTranslationFile fs locale) key = false.
Proof.
  rewrite computedBatch_eq. split.
  - intros Hempty locale key Hlocale Hkey. apply not_true_is_false. intros Hneeds.
    destruct (locales_batch_marked (extractAllTrKeys sources)
      (objectKeys (loadTranslationFile fs CANONICAL_LOCALE))
      SUPPORTED_LOCALES locale key NoDup_SUPPORTED_LOCALES Hlocale Hkey
      (fs, ∅) Hneeds) as (entries & Hentries & _).
    by rewrite Hempty, lookup_empty in Hentries.
  - intros Hnone.
    by rewrite (locales_batch_unchanged _ _ _ NoDup_SUPPORTED_LOCALES (fs, ∅)).
Qed.

Lemma orElse_empty existingValue fallback :
  orElse existingValue fallback = EmptyString → fallback = EmptyString.
Proof.
  unfold orElse. destruct existingValue as [[|c text]|]; simpl; congruence.
Qed.

Lemma orElse_truthy text fallback :
  text ≠ EmptyString → orElse (Some text) fallback = text.
Proof. by destruct text. Qed.

(** A second pass over a rebuilt store finds every text it wrote. *)
Lemma rebuiltText_stable locale existingKeys existingKeys' current current' key :
  key ∈ existingKeys' →
  current' !! key = Some (rebuiltText locale existingKeys current key) →
  rebuiltText locale existingKeys' current' key
  = rebuiltText locale existingKeys current key.
Proof.
  intros Hin Hcur. unfold rebuiltText at 1.
  rewrite bool_decide_eq_true_2, Hcur by done.
  destruct (rebuiltText locale existingKeys current key) as [|c text] eqn:Htext;
    [|done].
  simpl. unfold rebuiltText in Htext.
  case_bool_decide; [|done]. by apply orElse_empty in Htext.
Qed.
End main_facts.

(** ** Properties of a synchronization run *)

Section sync_properties.
Import Update.
Implicit Types (locale key text : string) (sources : list string) (fs : fileSystem).









(** C9: synchronization is idempotent. Whatever the files were before
    the first run (a pending batch may even be present), a second run over
    the same sources leaves every locale file exactly as the first run
    wrote it: the same properties, with the same texts, in the same sorted
    order. *)
Theorem sync_idempotent sources fs :
  stores (final (main sources (final (main sources fs))))
  = stores (final (main sources fs)).
Proof.
  apply map_eq. intros locale. rewrite main_stores.
  case_bool_decide as Hlocale; [|done].
  rewrite (main_stores sources fs), bool_decide_eq_true_2 by done.
  do 3 f_equal. apply map_eq. intros key. rewrite !rebuiltStore_lookup.
  case_bool_decide as Hkey; [|done]. f_equal.
  apply rebuiltText_stable.
  - apply elem_of_objectKeys.
    rewrite main_lookup, bool_decide_eq_true_2 by (done || apply canonical_supported).
    eauto.
  - by rewrite main_lookup, bool_decide_eq_true_2.
Qed.

(** The text a run leaves for a key that the canonical prior store holds
    and for which the locale's own prior store has a non-empty text. *)
Lemma rebuilt_text_of_known_key sources fs locale key text :
  locale ∈ SUPPORTED_LOCALES →
  key ∈ extractAllTrKeys sources →
  is_Some (loadTranslationFile fs CANONICAL_LOCALE !! key) →
  loadTranslationFile fs locale !! key = Some text →
  text ≠ EmptyString →
  loadTranslationFile (final (main sources fs)) locale !! key = Some text.
Proof.
  intros Hlocale Hkey Hcanon Hprior Htext.
  rewrite main_lookup, bool_decide_eq_true_2 by done.
  unfold rebuiltText.
  rewrite bool_decide_eq_true_2 by by apply elem_of_objectKeys.
  rewrite Hprior. by rewrite orElse_truthy.
Qed.




(** C7, as stated, fails: every locale has its text, the computed batch
    is empty, and the batch file left by an earlier run is still there
    after the run. *)
Lemma stale_batch_remains : ¬ NoBatchWhenUpToDate helloSource staleBatch.
Proof.
  intros H.
  assert (pending (final (main helloSource staleBatch)) = pending staleBatch)
    as Hrun by (vm_compute; reflexivity).
  rewrite H in Hrun; [discriminate Hrun|].
  vm_compute. reflexivity.
Qed.

(** C7 (amended): when the pending batch a synchronization run computes
    is empty, the run reports that everything is up to date and does not
    touch the pending-batch resource: none is written, and one that was
    present before the run is still present, unchanged, afterwards. *)
Theorem empty_batch_leaves_pending sources fs :
  computedBatch sources fs = ∅ →
  pending (final (main sources fs)) = pending fs ∧
  upToDate (main sources fs) = true.
Proof.
  intros Hempty.
  by rewrite main_pending, main_upToDate, !bool_decide_eq_true_2.
Qed.

Lemma empty_batch_leaves_pending_witness :
  pending (final (main helloSource staleBatch)) = pending staleBatch ∧
  upToDate (main helloSource staleBatch) = true.
Proof.
  apply (empty_batch_leaves_pending helloSource staleBatch).
  vm_compute. reflexivity.
Defined.
End sync_properties.

(** ** Validation of the pending batch *)

Section validate_facts.
Import Merge.
Implicit Types (entries : list (string * batchValue)) (data : gmap string batchValue)
  (locale key item : string).

Lemma validate_spec entries : ∀ hasEmpty allEmpty,
  match validate entries hasEmpty allEmpty with
  | inl locale => (locale, NotAnObject) ∈ entries
  | inr (hasEmpty', allEmpty') =>
      Forall (λ entry, entry.2 ≠ NotAnObject) entries ∧
      allEmpty' = allEmpty ++ offending entries ∧
      hasEmpty' = hasEmpty || bool_decide (offending entries ≠ [])
  end.
Proof.
  induction entries as [|[locale value] entries IH]; intros hasEmpty allEmpty.
  { simpl. split; [done|]. by rewrite app_nil_r, orb_false_r. }
  destruct value as [|translations]; [apply list_elem_of_here|].
  cbn [validate]. unfold offending. cbn [mbind list_bind].
  change (offendingOf (locale, Translations translations))
    with ((λ kv, formatItem locale kv.1) <$> emptyTranslations translations).
  fold (offending entries).
  destruct (emptyTranslations translations) as [|kv empty] eqn:Hempty.
  - rewrite bool_decide_eq_false_2 by (simpl; lia).
    specialize (IH hasEmpty allEmpty).
    destruct (validate entries hasEmpty allEmpty) as [l|[h items]].
    + by right.
    + destruct IH as (Hshape & -> & ->). split; [by constructor|done].
  - rewrite bool_decide_eq_true_2 by (simpl; lia).
    set (lines := (λ kv0, formatItem locale kv0.1) <$> kv :: empty) in *.
    specialize (IH true (allEmpty ++ lines)).
    destruct (validate entries true (allEmpty ++ lines)) as [l|[h items]].
    + by right.
    + destruct IH as (Hshape & -> & ->). split; [by constructor|].
      split; [by rewrite app_assoc|].
      rewrite (bool_decide_eq_true_2 (lines ++ _ ≠ [])) by done.
      by rewrite orb_true_r.
Qed.

Lemma elem_of_offending data item :
  item ∈ offending (map_to_list data) ↔
  ∃ locale key, BlankEntry data locale key ∧ item = formatItem locale key.
Proof.
  unfold offending. rewrite list_elem_of_bind. split.
  - intros ([locale value] & Hitem & Hentry).
    apply elem_of_map_to_list in Hentry.
    destruct value as [|translations]; [by apply not_elem_of_nil in Hitem|].
    unfold offendingOf in Hitem. cbn [fst snd] in Hitem.
    apply list_elem_of_fmap in Hitem as ([key text] & -> & Hkv).
    apply list_elem_of_filter in Hkv as [Hblank Hkv].
    apply elem_of_map_to_list in Hkv.
    exists locale, key. split; [|done]. by exists translations, text.
  - intros (locale & key & (translations & text & Hdata & Hkey & Hblank) & ->).
    exists (locale, Translations translations). split.
    + unfold offendingOf. cbn [fst snd].
      apply list_elem_of_fmap. exists (key, text). split; [done|].
      apply list_elem_of_filter. split; [done|]. by apply elem_of_map_to_list.
    + by apply elem_of_map_to_list.
Qed.

Lemma WellShaped_entries data :
  WellShaped data ↔ Forall (λ entry, entry.2 ≠ NotAnObject) (map_to_list data).
Proof.
  rewrite Forall_forall. split.
  - intros Hshape [locale value] Hin Hvalue. simpl in Hvalue. subst value.
    apply elem_of_map_to_list in Hin. by apply (Hshape locale).
  - intros Hall locale Hdata. apply elem_of_map_to_list in Hdata.
    by apply (Hall _ Hdata).
Qed.

(** What validation returns on a batch whose values are all objects. *)
Lemma validate_well_shaped data :
  WellShaped data →
  validate (map_to_list data) false []
  = inr (bool_decide (offending (map_to_list data) ≠ []),
         offending (map_to_list data)).
Proof.
  intros Hshape.
  pose proof (validate_spec (map_to_list data) false []) as Hspec.
  destruct (validate (map_to_list data) false []) as [locale|[h items]].
  - apply elem_of_map_to_list in Hspec. by destruct (Hshape locale).
  - by destruct Hspec as (_ & -> & ->).
Qed.
End validate_facts.

(** ** The merge loop *)

Section merge_facts.
Import Merge.
Implicit Types (fs : fileSystem) (data : gmap string batchValue)
  (locale key : string) (entry : string * batchValue).

Lemma mergeEntry_dom kvs : ∀ acc, dom acc.1 ⊆ dom (foldl mergeEntry acc kvs).1.
Proof.
  induction kvs as [|kv kvs IH]; intros acc; [done|].
  cbn [foldl]. etrans; [|apply IH].
  unfold mergeEntry. destruct (negb (blankText kv.2)); [|done].
  cbn [fst]. rewrite dom_insert_L. set_solver.
Qed.

Lemma storeKeys_save locale translations fs locale' :
  storeKeys (saveTranslationFile locale translations fs) locale'
  = if decide (locale = locale') then dom translations else storeKeys fs locale'.
Proof.
  unfold storeKeys, saveTranslationFile. cbn [stores].
  destruct (decide (locale = locale')) as [->|Hne].
  - rewrite lookup_insert_eq. fold (savedEntries translations).
    by rewrite parseRecord_savedEntries.
  - by rewrite lookup_insert_ne.
Qed.

Lemma load_storeKeys fs locale current :
  loadTranslationFile fs locale = Some current → storeKeys fs locale = dom current.
Proof.
  unfold loadTranslationFile, storeKeys.
  destruct (stores fs !! locale) as [[|entries]|]; [done| |done].
  by intros [= <-].
Qed.

Lemma mergeLocale_keys acc entry locale :
  storeKeys acc.1 locale ⊆ storeKeys (mergeLocale acc entry).1 locale.
Proof.
  unfold mergeLocale. destruct entry.2 as [|newTranslations]; [done|].
  destruct (loadTranslationFile acc.1 entry.1) as [current|] eqn:Hload; [|done].
  cbn [fst]. rewrite storeKeys_save.
  destruct (decide (entry.1 = locale)) as [<-|]; [|done].
  rewrite (load_storeKeys _ _ _ Hload).
  apply (mergeEntry_dom _ (current, 0)).
Qed.

Lemma mergeLocale_pending acc entry :
  pending (mergeLocale acc entry).1 = pending acc.1.
Proof.
  unfold mergeLocale. destruct entry.2; [done|].
  by destruct (loadTranslationFile acc.1 entry.1).
Qed.

(** Across the loop over the locales of the batch no store loses a key,
    and the batch resource is not touched. *)
Lemma merge_loop_keys entries : ∀ acc locale,
  storeKeys acc.1 locale ⊆ storeKeys (foldl mergeLocale acc entries).1 locale.
Proof.
  induction entries as [|entry entries IH]; intros acc locale; [done|].
  cbn [foldl]. etrans; [apply (mergeLocale_keys acc entry)|apply IH].
Qed.

Lemma merge_loop_pending entries : ∀ acc,
  pending (foldl mergeLocale acc entries).1 = pending acc.1.
Proof.
  induction entries as [|entry entries IH]; intros acc; [done|].
  cbn [foldl]. by rewrite IH, mergeLocale_pending.
Qed.

(** A run that passes validation, in terms of the loop. *)
Lemma main_merged fs data :
  pending fs = Some (Batch data) →
  validate (map_to_list data) false [] = inr (false, []) →
  let merged := foldl mergeLocale (fs, 0) (map_to_list data) in
  result (main fs) = Merged merged.2 ∧
  stores (final (main fs)) = stores merged.1 ∧
  pending (final (main fs))
  = if bool_decide (0 < merged.2) then None else pending fs.
Proof.
  intros Hpending Hvalid. cbv zeta. unfold main. rewrite Hpending, Hvalid.
  rewrite <- Hpending.
  pose proof (merge_loop_pending (map_to_list data) (fs, 0)) as Hloop.
  revert Hloop. generalize (foldl mergeLocale (fs, 0) (map_to_list data)).
  intros [fs' total]. cbn [fst snd]. intros <-. by case_bool_decide.
Qed.

Lemma offending_nil data :
  (∀ locale key, ¬ BlankEntry data locale key) → offending (map_to_list data) = [].
Proof.
  intros Hnone. destruct (offending (map_to_list data)) as [|item items] eqn:Hoff;
    [done|].
  assert (item ∈ offending (map_to_list data)) as Hin
    by (rewrite Hoff; apply list_elem_of_here).
  apply elem_of_offending in Hin as (locale & key & Hblank & _).
  by destruct (Hnone locale key).
Qed.
End merge_facts.

(** ** Properties of a merge run *)

Section merge_properties.
Import Merge.
Implicit Types (fs : fileSystem) (data : gmap string batchValue)
  (locale key item : string).

(** C2: a pending batch that holds at least one entry whose text is empty
    or blank after trimming is rejected before any file is modified: the
    run ends with a non-zero exit status and the file system is the one
    it started from. When every value of the batch is an object of texts
    (the shape of a pending batch), the rejection report has a line for
    every offending locale and key, across all the locales, and no other
    line. *)
Theorem blank_batch_rejected fs data locale key :
  pending fs = Some (Batch data) →
  BlankEntry data locale key →
  final (main fs) = fs ∧ exitCode (result (main fs)) = 1 ∧
  (WellShaped data →
   ∃ items,
     result (main fs) = Untranslated items ∧
     ∀ item, item ∈ items ↔
       ∃ locale' key', BlankEntry data locale' key' ∧ item = formatItem locale' key').
Proof.
  intros Hpending Hblank.
  assert (offending (map_to_list data) ≠ []) as Hoff.
  { intros Hnil.
    assert (formatItem locale key ∈ offending (map_to_list data)) as Hin
      by (apply elem_of_offending; eauto).
    rewrite Hnil in Hin. by apply not_elem_of_nil in Hin. }
  unfold main. rewrite Hpending.
  pose proof (validate_spec (map_to_list data) false []) as Hspec.
  destruct (validate (map_to_list data) false []) as [bad|[h items]].
  - do 2 (split; [done|]). intros Hshape.
    apply elem_of_map_to_list in Hspec. by destruct (Hshape bad).
  - destruct Hspec as (_ & -> & ->).
    rewrite bool_decide_eq_true_2 by done. cbn [orb app].
    do 2 (split; [done|]). intros _.
    exists (offending (map_to_list data)). split; [done|].
    intros item. apply elem_of_offending.
Qed.

Lemma blank_batch_rejected_witness :
  final (main halfDoneBatch) = halfDoneBatch ∧
  exitCode (result (main halfDoneBatch)) = 1 ∧
  (WellShaped halfDoneData →
   ∃ items,
     result (main halfDoneBatch) = Untranslated items ∧
     ∀ item, item ∈ items ↔
       ∃ locale' key',
         BlankEntry halfDoneData locale' key' ∧ item = formatItem locale' key').
Proof.
  apply (blank_batch_rejected halfDoneBatch halfDoneData "de" "Hello").
  - reflexivity.
  - exists {[ "Hello" := " " ]}, " ". repeat split; vm_compute; reflexivity.
Defined.

Example halfDoneBatch_report :
  result (main halfDoneBatch) = Untranslated [formatItem "de" "Hello"].
Proof. vm_compute. reflexivity. Qed.



Example frenchBatch_merged :
  result (main frenchBatch) = Merged 1 ∧
  stores (final (main frenchBatch)) !! "fr"
  = Some (Record [("Bye", "Au revoir"); ("Hello", "Bonjour")]) ∧
  pending (final (main frenchBatch)) = None.
Proof. vm_compute. done. Qed.
End merge_properties.

(** ** Loading a store that is absent or does not parse *)

Section load_properties.
Implicit Types (fs : fileSystem) (locale : string).



End load_properties.

(** * Further properties *)

(** ** The scanner finds every well-formed call *)

Section scanner_complete.
Import Scanner.
Implicit Types (s t raw key content pre : string) (c quote : ascii)
  (prev : option ascii) (keys : list string).

Lemma exec_unfold prev s :
  exec prev s
  = match matchHere prev s with
    | Some after => Some after
    | None =>
        match s with
        | EmptyString => None
        | String c s' => exec (Some c) s'
        end
    end.
Proof. by destruct s. Qed.

Lemma lastOr_app prev pre t :
  lastOr prev (pre +:+ t) = lastOr (lastOr prev pre) t.
Proof. revert prev. induction pre as [|c pre IH]; intros prev; [done|]. apply IH. Qed.

Lemma app_eq_app_split p1 : ∀ x1 p2 x2,
  p1 +:+ x1 = p2 +:+ x2 →
  (∃ d, p2 = p1 +:+ d ∧ x1 = d +:+ x2) ∨ (∃ d, p1 = p2 +:+ d ∧ x2 = d +:+ x1).
Proof.
  induction p1 as [|c p1 IH]; intros x1 p2 x2 Heq.
  - left. by exists p2.
  - destruct p2 as [|c2 p2].
    + right. by exists (String c p1).
    + rewrite !app_cons in Heq. injection Heq as <- Heq.
      destruct (IH _ _ _ Heq) as [(d & -> & ->)|(d & -> & ->)];
        [left|right]; by exists d.
Qed.

Lemma isQuote_cases quote :
  isQuote quote = true → quote = dquote ∨ quote = squote ∨ quote = backtick.
Proof.
  unfold isQuote. rewrite !orb_true_iff, !Ascii.eqb_eq. tauto.
Qed.

Lemma trimStart_app_allSpace ws s :
  allSpace ws → trimStart (ws +:+ s) = trimStart s.
Proof.
  unfold allSpace. induction ws as [|c ws IH]; [done|].
  rewrite app_cons. simpl. destruct (isSpace c); [|done]. apply IH.
Qed.

(** The inner loop reads a [Body] up to its closing quote. *)
Lemma readLiteral_complete quote raw key :
  isQuote quote = true → Body quote raw key → ∀ value rest,
  readLiteral quote (raw +:+ String quote rest) value false false false
  = Some (value +:+ key, false, false).
Proof.
  intros Hq HB.
  assert (Ascii.eqb quote backslash = false) as Hqbs
    by (by destruct (isQuote_cases _ Hq) as [->|[->| ->]]).
  assert (Ascii.eqb quote backtick && Ascii.eqb quote dollar = false) as Hqd
    by (by destruct (isQuote_cases _ Hq) as [->|[->| ->]]).
  induction HB as [|c raw key HB IH|c raw key Hbs Hcq Hnl Htpl HB IH];
    intros value rest.
  - rewrite app_empty_l, app_empty_r. simpl.
    rewrite Hqbs, Ascii.eqb_refl, Hqd. done.
  - rewrite !app_cons. simpl. rewrite IH. by rewrite snoc_app.
  - rewrite app_cons. simpl.
    rewrite (proj2 (Ascii.eqb_neq _ _) Hbs), (proj2 (Ascii.eqb_neq _ _) Hcq),
      (proj2 (Ascii.eqb_neq _ _) Hnl).
    assert (Ascii.eqb quote backtick && Ascii.eqb c dollar
            && match raw +:+ String quote rest with
               | String next _ => Ascii.eqb next lbrace
               | EmptyString => false
               end = false) as ->.
    { apply not_true_is_false. intros Hall.
      apply andb_true_iff in Hall as [[Hb Hd]%andb_true_iff Hnext].
      apply Ascii.eqb_eq in Hb as ->. apply Ascii.eqb_eq in Hd as ->.
      apply Htpl. do 2 (split; [done|]).
      destruct raw as [|x raw]; [|by rewrite app_cons in Hnext].
      rewrite app_empty_l in Hnext. done. }
    rewrite IH. by rewrite snoc_app.
Qed.

Lemma literalAt_complete after quote raw rest key :
  isQuote quote = true →
  trimStart after = String quote (raw +:+ String quote rest) →
  Body quote raw key → key ≠ EmptyString →
  literalAt after = Some key.
Proof.
  intros Hq Hafter HB Hne. unfold literalAt. rewrite Hafter, Hq.
  rewrite (readLiteral_complete quote raw key Hq HB EmptyString rest).
  rewrite app_empty_l. by destruct key.
Qed.

Lemma matchHere_complete prev ws after :
  from_option isWordChar false prev = false → allSpace ws →
  matchHere prev ("tr" +:+ ws +:+ "(" +:+ after) = Some after.
Proof.
  intros Hprev Hws. unfold matchHere, wordBoundary. rewrite Hprev.
  change ("tr" +:+ ws +:+ "(" +:+ after)
    with (String "t" (String "r" (ws +:+ String "(" after))).
  cbn [xorb isWordChar]. 
  replace (isWordChar "t") with true by (vm_compute; reflexivity).
  cbn [xorb negb]. by rewrite trimStart_app_allSpace.
Qed.

(** The search stops at the first match at or before a given one. *)
Lemma exec_first s' after pre : ∀ prev,
  matchHere (lastOr prev pre) s' = Some after →
  ∃ pre1 d after1,
    pre = pre1 +:+ d ∧
    matchHere (lastOr prev pre1) (d +:+ s') = Some after1 ∧
    exec prev (pre +:+ s') = Some after1.
Proof.
  induction pre as [|c pre IH]; intros prev Hmatch.
  - exists EmptyString, EmptyString, after. do 2 (split; [done|]).
    simpl in Hmatch. rewrite app_empty_l, exec_unfold. by rewrite Hmatch.
  - rewrite app_cons, exec_unfold.
    destruct (matchHere prev (String c (pre +:+ s'))) as [after1|] eqn:Hhere.
    + by exists EmptyString, (String c pre), after1.
    + destruct (IH (Some c) Hmatch) as (pre1 & d & after1 & -> & Hm & Hex).
      by exists (String c pre1), d, after1.
Qed.

Lemma scanLoop_mono fuel : ∀ prev s keys key,
  key ∈ keys → key ∈ scanLoop fuel prev s keys.
Proof.
  induction fuel as [|fuel IH]; intros prev s keys key Hin; [done|].
  simpl. destruct (exec prev s) as [after|]; [|done]. apply IH.
  destruct (literalAt after) as [value|]; [|done].
  unfold pushUnique. case_bool_decide; [done|]. apply elem_of_app. by left.
Qed.

Lemma elem_of_pushUnique keys value : value ∈ pushUnique keys value.
Proof.
  unfold pushUnique. case_bool_decide; [done|].
  apply elem_of_app. right. apply list_elem_of_here.
Qed.

(** A text that starts with [t] does not start inside the whitespace and
    parenthesis of a match. *)
Lemma not_inside_match d e ws after1 rest :
  allSpace ws → d ≠ EmptyString → e ≠ EmptyString →
  d +:+ e = "tr" +:+ ws +:+ "(" →
  e +:+ after1 ≠ String "t" rest.
Proof.
  intros Hws Hd He Heq Hstart.
  destruct d as [|x d]; [done|].
  change ("tr" +:+ ws +:+ "(") with (String "t" (String "r" (ws +:+ "("))) in Heq.
  rewrite app_cons in Heq. injection Heq as _ Heq.
  destruct e as [|y e]; [done|]. rewrite app_cons in Hstart.
  injection Hstart as -> _. clear Hd He x.
  destruct d as [|x1 d].
  { rewrite app_empty_l in Heq. by injection Heq. }
  rewrite app_cons in Heq. injection Heq as _ Heq. clear x1.
  revert d Heq. unfold allSpace in Hws.
  induction ws as [|w ws IH]; intros d Heq.
  - rewrite app_empty_l in Heq. destruct d as [|x2 d].
    + rewrite app_empty_l in Heq. by injection Heq.
    + rewrite app_cons in Heq. injection Heq as _ Heq. by destruct d.
  - simpl in Hws. apply andb_true_iff in Hws as [Hw Hws].
    rewrite app_cons in Heq. destruct d as [|x2 d].
    + rewrite app_empty_l in Heq. injection Heq as <- _.
      vm_compute in Hw. discriminate.
    + rewrite app_cons in Heq. injection Heq as _ Heq. by apply (IH Hws d).
Qed.

(** Every match in the text is visited by the loop, and its literal, if
    accepted, is among the keys returned. *)
Lemma scanLoop_visits fuel : ∀ prev pre s' keys after key,
  String.length (pre +:+ s') ≤ fuel →
  matchHere (lastOr prev pre) s' = Some after →
  literalAt after = Some key →
  key ∈ scanLoop fuel prev (pre +:+ s') keys.
Proof.
  induction fuel as [|fuel IH]; intros prev pre s' keys after key Hlen Hm Hlit.
  { destruct pre; [|simpl in Hlen; lia]. destruct s'; [|simpl in Hlen; lia].
    unfold matchHere in Hm. by destruct (wordBoundary _ _). }
  destruct (exec_first s' after pre prev Hm) as (pre1 & d & after1 & -> & Hm1 & Hex).
  simpl. rewrite Hex.
  pose proof (exec_shorter _ _ _ Hex) as Hshort.
  destruct (matchHere_split _ _ _ Hm1) as (ws & Hws & Hsplit).
  destruct (matchHere_split _ _ _ Hm) as (ws' & _ & Hs').
  destruct (decide (d = EmptyString)) as [->|Hd].
  { rewrite app_empty_l in Hm1. rewrite app_empty_r in Hm.
    rewrite Hm in Hm1. injection Hm1 as <-. rewrite Hlit.
    apply scanLoop_mono, elem_of_pushUnique. }
  assert (∃ e, d = ("tr" +:+ ws +:+ "(") +:+ e ∧ after1 = e +:+ s')
    as (e & -> & ->).
  { assert ("tr" +:+ ws +:+ "(" +:+ after1
            = ("tr" +:+ ws +:+ "(") +:+ after1) as Hre
      by (by rewrite !app_assoc').
    rewrite Hre in Hsplit.
    destruct (app_eq_app_split _ _ _ _ Hsplit) as [(e & He & Hs)|(e & He & Hs)].
    - destruct (decide (e = EmptyString)) as [->|Hne].
      + exists EmptyString. rewrite app_empty_r in He. rewrite app_empty_l in Hs.
        by rewrite app_empty_r, app_empty_l.
      + exfalso. symmetry in He.
        eapply (not_inside_match d e ws after1); [done..|].
        rewrite <- Hs, Hs'. reflexivity.
    - by exists e. }
  eapply IH; [lia| |done].
  rewrite !lastOr_app in Hm. exact Hm.
Qed.
End scanner_complete.

Section scanner_exact.
Import Scanner.
Implicit Types (s raw key content pre : string) (quote : ascii)
  (prev : option ascii) (keys : list string).

Lemma matchHere_boundary prev s after :
  matchHere prev s = Some after → from_option isWordChar false prev = false.
Proof.
  intros Hm. pose proof (matchHere_split _ _ _ Hm) as (ws & _ & ->).
  unfold matchHere in Hm.
  destruct (wordBoundary prev _) eqn:Hwb; [|done].
  unfold wordBoundary in Hwb.
  change ("tr" +:+ ws +:+ "(" +:+ after)
    with (String "t" (String "r" (ws +:+ String "(" after))) in Hwb.
  replace (isWordChar "t") with true in Hwb by (vm_compute; reflexivity).
  by destruct (from_option isWordChar false prev).
Qed.

Lemma exec_split_boundary s : ∀ prev after,
  exec prev s = Some after →
  ∃ pre ws,
    allSpace ws ∧ s = pre +:+ "tr" +:+ ws +:+ "(" +:+ after ∧
    from_option isWordChar false (lastOr prev pre) = false.
Proof.
  induction s as [|c s IH]; intros prev after; rewrite exec_unfold.
  - destruct (matchHere prev EmptyString) eqn:Hm; [|done]. intros [= ->].
    pose proof (matchHere_boundary _ _ _ Hm).
    apply matchHere_split in Hm as (ws & ? & ?). by exists EmptyString, ws.
  - destruct (matchHere prev (String c s)) eqn:Hm.
    + intros [= ->]. pose proof (matchHere_boundary _ _ _ Hm).
      apply matchHere_split in Hm as (ws & ? & ?). by exists EmptyString, ws.
    + intros (pre & ws & ? & -> & ?)%IH. by exists (String c pre), ws.
Qed.

Lemma scanLoop_Found content fuel : ∀ prev s keys pre,
  content = pre +:+ s → lastOr None pre = prev →
  Forall (Found content) keys →
  Forall (Found content) (scanLoop fuel prev s keys).
Proof.
  induction fuel as [|fuel IH]; intros prev s keys pre Hcontent Hprev Hkeys;
    [done|].
  simpl. destruct (exec prev s) as [after|] eqn:Hex; [|done].
  apply exec_split_boundary in Hex as (pre' & ws1 & Hws1 & -> & Hb).
  eapply (IH _ _ _ (pre +:+ pre' +:+ "tr" +:+ ws1 +:+ "(")).
  { by rewrite Hcontent, !app_assoc'. }
  { by rewrite !lastOr_app. }
  destruct (literalAt after) as [key|] eqn:Hlit; [|done].
  unfold pushUnique. case_bool_decide; [done|].
  apply Forall_app. split; [done|]. apply Forall_singleton.
  apply literalAt_Body in Hlit as (Hne & quote & raw & rest & Hq & Hafter & HB).
  split; [done|]. exists quote, raw. split; [done|]. split; [|done].
  destruct (trimStart_split after) as (ws2 & Hws2 & Heq).
  exists (pre +:+ pre'), ws1, ws2, rest. do 2 (split; [done|]). split.
  - by rewrite lastOr_app, Hprev.
  - rewrite Hcontent, Heq, Hafter, !app_assoc'. done.
Qed.

Lemma scanLoop_NoDup fuel : ∀ prev s keys,
  NoDup keys → NoDup (scanLoop fuel prev s keys).
Proof.
  induction fuel as [|fuel IH]; intros prev s keys Hnd; [done|].
  simpl. destruct (exec prev s) as [after|]; [|done]. apply IH.
  destruct (literalAt after); [|done]. by apply pushUnique_NoDup.
Qed.

(** X1: the scanner is exact. A key is returned for a file if and only if
    it is non-empty and the file holds a call [tr(] (not the tail of a
    longer identifier, whitespace allowed around the parenthesis) whose
    first argument is a quoted literal with that key as its text: no
    unescaped newline, no unescaped [$] before [{] between backticks, each
    escaping backslash dropped. *)
Theorem extracted_iff_found content key :
  key ∈ extractTrCallsFromFile content ↔ Found content key.
Proof.
  split.
  - intros Hin.
    assert (Forall (Found content) (extractTrCallsFromFile content)) as Hall.
    { by apply (scanLoop_Found content _ _ _ _ EmptyString). }
    rewrite Forall_forall in Hall. by apply Hall.
  - intros (Hne & quote & raw & Hq & (pre & ws1 & ws2 & rest & Hws1 & Hws2 & Hb & ->) & HB).
    unfold extractTrCallsFromFile.
    apply (scanLoop_visits _ None pre _ []
             (ws2 +:+ String quote (raw +:+ String quote rest))); [done| |].
    + by apply matchHere_complete.
    + apply (literalAt_complete _ quote raw rest); [done| |done..].
      rewrite trimStart_app_allSpace by done. simpl.
      by destruct (isQuote_cases _ Hq) as [->|[->| ->]].
Qed.

(** X2: the keys returned for a file are pairwise distinct. *)
Theorem extracted_keys_distinct content :
  NoDup (extractTrCallsFromFile content).
Proof. apply scanLoop_NoDup. constructor. Qed.
End scanner_exact.

(** ** The canonical key set *)

Section canonical_keys.
Import Scanner Update.
Implicit Types (sources : list string) (key content : string).

Lemma elem_of_foldl_pushUnique values : ∀ keys key,
  key ∈ foldl pushUnique keys values ↔ key ∈ keys ∨ key ∈ values.
Proof.
  induction values as [|v values IH]; intros keys key.
  - split; [by left|]. intros [?|Hnil]; [done|]. by apply not_elem_of_nil in Hnil.
  - cbn [foldl]. rewrite IH. unfold pushUnique. case_bool_decide as Hv.
    + rewrite elem_of_cons. split; [tauto|]. intros [?|[->|?]]; tauto.
    + rewrite elem_of_app, list_elem_of_singleton, elem_of_cons. tauto.
Qed.

Lemma elem_of_union_fold sources : ∀ keys key,
  key ∈ foldl (λ allKeys content,
                 foldl pushUnique allKeys (extractTrCallsFromFile content))
              keys sources
  ↔ key ∈ keys ∨ ∃ content, content ∈ sources ∧ key ∈ extractTrCallsFromFile content.
Proof.
  induction sources as [|c sources IH]; intros keys key.
  - split; [by left|]. intros [?|(? & Hnil & _)]; [done|].
    by apply not_elem_of_nil in Hnil.
  - cbn [foldl]. rewrite IH, elem_of_foldl_pushUnique. split.
    + intros [[?|?]|(content & ? & ?)]; [by left| |].
      * right. exists c. split; [by left|done].
      * right. exists content. split; [by right|done].
    + intros [?|(content & [->|?]%elem_of_cons & ?)]; [by left; left| |].
      * by left; right.
      * right. by exists content.
Qed.

Lemma elem_of_extractAllTrKeys sources key :
  key ∈ extractAllTrKeys sources ↔
  ∃ content, content ∈ sources ∧ key ∈ extractTrCallsFromFile content.
Proof.
  unfold extractAllTrKeys.
  rewrite elem_of_sortKeys, elem_of_union_fold. split; [|by right].
  intros [Hnil|?]; [|done]. by apply not_elem_of_nil in Hnil.
Qed.

(** X3: the canonical key set is the union of the keys of the scanned
    files, listed once each in strictly ascending order: a key belongs to
    it exactly when some source file yields it, and the list is sorted and
    free of duplicates. *)
Theorem canonical_keys_union sources :
  (∀ key, key ∈ extractAllTrKeys sources ↔
          ∃ content, content ∈ sources ∧ key ∈ extractTrCallsFromFile content) ∧
  Sorted String.le (extractAllTrKeys sources) ∧
  NoDup (extractAllTrKeys sources).
Proof.
  split; [|split; [apply extractAllTrKeys_sorted|apply extractAllTrKeys_NoDup]].
  intros key. apply elem_of_extractAllTrKeys.
Qed.

(** X4: the canonical key set does not depend on the order in which the
    source files are scanned, nor on a file being scanned twice. *)
Theorem canonical_keys_order_independent sources sources' :
  (∀ content, content ∈ sources ↔ content ∈ sources') →
  extractAllTrKeys sources = extractAllTrKeys sources'.
Proof.
  intros Hsame.
  apply (Sorted_unique String.le);
    [apply extractAllTrKeys_sorted..|].
  apply NoDup_Permutation; [apply extractAllTrKeys_NoDup..|].
  intros key. rewrite !elem_of_extractAllTrKeys.
  by setoid_rewrite Hsame.
Qed.

Lemma canonical_keys_order_independent_witness :
  extractAllTrKeys ["tr('b')"; "tr('a'); tr('b')"]
  = extractAllTrKeys ["tr('a'); tr('b')"; "tr('b')"; "tr('a'); tr('b')"].
Proof.
  apply canonical_keys_order_independent.
  intros content. rewrite !elem_of_cons, !elem_of_nil. tauto.
Defined.
End canonical_keys.

(** ** The report and the pending batch of a synchronization run *)

Section batch_facts.
Import Update.
Implicit Types (locale key text : string) (sources : list string)
  (fs : fileSystem) (existingKeys extractedKeys locales : list string)
  (current entries : gmap string string)
  (toTranslate : gmap string (gmap string string)).

Lemma main_diff sources fs :
  let extractedKeys := extractAllTrKeys sources in
  let existingKeys := objectKeys (loadTranslationFile fs CANONICAL_LOCALE) in
  removedKeys (main sources fs)
  = filter (λ key, key ∉ extractedKeys) existingKeys ∧
  newKeys (main sources fs)
  = filter (λ key, key ∉ existingKeys) extractedKeys.
Proof.
  cbv zeta. unfold main. cbv zeta.
  generalize (foldl (rebuildLocale (extractAllTrKeys sources)
                (objectKeys (loadTranslationFile fs CANONICAL_LOCALE)))
             (fs, ∅) SUPPORTED_LOCALES).
  intros updated. by destruct (bool_decide (0 < _)).
Qed.

Lemma needsTranslation_not_canonical locale existingKeys current key :
  needsTranslation locale existingKeys current key = true →
  locale ≠ CANONICAL_LOCALE.
Proof.
  unfold needsTranslation. case_bool_decide; [done|]. done.
Qed.

Lemma rebuild_batch_listed locale existingKeys current extractedKeys keys :
  (∀ key, key ∈ keys → key ∈ extractedKeys) → ∀ acc,
  (∀ entries, acc.2 !! locale = Some entries →
     ListedFor locale existingKeys extractedKeys current entries) →
  ∀ entries,
    (foldl (rebuildKey locale existingKeys current) acc keys).2 !! locale
    = Some entries →
    ListedFor locale existingKeys extractedKeys current entries.
Proof.
  induction keys as [|k keys IH]; intros Hsub acc Hacc; [done|].
  cbn [foldl]. apply IH; [intros key ?; apply Hsub; by right|].
  intros entries. rewrite rebuildKey_snd.
  destruct (needsTranslation locale existingKeys current k) eqn:Hk; [|apply Hacc].
  unfold markPending. rewrite lookup_insert_eq. intros [= <-]. split.
  - apply insert_non_empty.
  - intros key text.
    destruct (decide (k = key)) as [<-|Hne].
    + rewrite lookup_insert_eq. intros [= <-].
      split; [done|]. split; [apply Hsub; by left|done].
    + rewrite lookup_insert_ne by done.
      destruct (acc.2 !! locale) as [listed|] eqn:Hlisted; [|done].
      apply (Hacc listed eq_refl).
Qed.

Lemma locales_batch_listed extractedKeys existingKeys fs locales :
  NoDup locales → ∀ acc,
  (∀ locale, locale ∈ locales →
     loadTranslationFile acc.1 locale = loadTranslationFile fs locale) →
  ∀ all : list string,
  (∀ locale, locale ∈ locales → locale ∈ all) →
  (∀ locale entries, acc.2 !! locale = Some entries →
     locale ∈ all ∧
     ListedFor locale existingKeys extractedKeys
       (loadTranslationFile fs locale) entries) →
  ∀ locale entries,
    (foldl (rebuildLocale extractedKeys existingKeys) acc locales).2 !! locale
    = Some entries →
    locale ∈ all ∧
    ListedFor locale existingKeys extractedKeys
      (loadTranslationFile fs locale) entries.
Proof.
  induction 1 as [|l locales Hl Hnd IH]; intros acc Hload all Hall Hacc; [done|].
  cbn [foldl]. apply IH.
  - intros locale Hin. rewrite rebuildLocale_fst.
    rewrite load_save_ne by (by intros ->). apply Hload. by right.
  - intros locale Hin. apply Hall. by right.
  - intros locale entries. unfold rebuildLocale. cbn [snd].
    destruct (decide (l = locale)) as [<-|Hne].
    + intros Hentries. split; [apply Hall; by left|].
      rewrite Hload in Hentries by by left.
      revert entries Hentries.
      apply (rebuild_batch_listed l existingKeys _ extractedKeys extractedKeys);
        [done|].
      cbn [snd]. intros entries Hentries. by apply Hacc.
    + rewrite rebuild_batch_other by done. cbn [snd]. apply Hacc.
Qed.

Lemma computedBatch_listed sources fs locale entries :
  computedBatch sources fs !! locale = Some entries →
  locale ∈ SUPPORTED_LOCALES ∧
  ListedFor locale (objectKeys (loadTranslationFile fs CANONICAL_LOCALE))
    (extractAllTrKeys sources) (loadTranslationFile fs locale) entries.
Proof.
  rewrite computedBatch_eq.
  apply (locales_batch_listed _ _ fs _ NoDup_SUPPORTED_LOCALES (fs, ∅));
    [done..|].
  intros l e. cbn [snd]. by rewrite lookup_empty.
Qed.

Lemma computedBatch_lists sources fs locale key :
  locale ∈ SUPPORTED_LOCALES → key ∈ extractAllTrKeys sources →
  needsTranslation locale
    (objectKeys (loadTranslationFile fs CANONICAL_LOCALE))
    (loadTranslationFile fs locale) key = true →
  ∃ entries,
    computedBatch sources fs !! locale = Some entries ∧
    entries !! key = Some EmptyString.
Proof.
  intros Hlocale Hkey Hneeds. rewrite computedBatch_eq.
  by apply (locales_batch_marked _ _ _ _ _ NoDup_SUPPORTED_LOCALES Hlocale Hkey
              (fs, ∅)).
Qed.

(** For a locale other than the canonical one, the text written is blank
    exactly when the key is in need of translation. *)
Lemma rebuiltText_blank_iff locale existingKeys current key :
  locale ≠ CANONICAL_LOCALE →
  blankText (rebuiltText locale existingKeys current key)
  = needsTranslation locale existingKeys current key.
Proof.
  intros Hne. unfold rebuiltText, needsTranslation.
  rewrite !(bool_decide_eq_false_2 (locale = _)) by done.
  destruct (bool_decide (key ∈ existingKeys)); simpl; [|done].
  destruct (current !! key) as [[|c text]|]; done.
Qed.
End batch_facts.

Section sync_extras.
Import Update.
Implicit Types (locale key text : string) (sources : list string)
  (fs : fileSystem).

(** X5: the removed keys a run reports are exactly the keys of the
    canonical store read at the start that the scan no longer finds, and
    after the run no supported locale's store holds any of them. *)
Theorem removed_keys_dropped sources fs :
  (∀ key, key ∈ removedKeys (main sources fs) ↔
     is_Some (loadTranslationFile fs CANONICAL_LOCALE !! key) ∧
     key ∉ extractAllTrKeys sources) ∧
  (∀ key locale,
     key ∈ removedKeys (main sources fs) → locale ∈ SUPPORTED_LOCALES →
     loadTranslationFile (final (main sources fs)) locale !! key = None).
Proof.
  destruct (main_diff sources fs) as [Hremoved _]. cbv zeta in Hremoved.
  assert (∀ key, key ∈ removedKeys (main sources fs) ↔
     is_Some (loadTranslationFile fs CANONICAL_LOCALE !! key) ∧
     key ∉ extractAllTrKeys sources) as Hiff.
  { intros key. rewrite Hremoved, list_elem_of_filter, elem_of_objectKeys. tauto. }
  split; [done|]. intros key locale [_ Hgone]%Hiff Hlocale.
  by rewrite main_lookup, bool_decide_eq_false_2.
Qed.





(** X9: for a supported locale other than the canonical one, the pending
    batch lists a canonical key exactly when the text the run writes for
    it in that locale's store is blank. *)
Theorem listed_iff_blank sources fs locale key :
  locale ∈ SUPPORTED_LOCALES → locale ≠ CANONICAL_LOCALE →
  key ∈ extractAllTrKeys sources →
  (∃ entries, computedBatch sources fs !! locale = Some entries ∧
              is_Some (entries !! key)) ↔
  (∃ text, loadTranslationFile (final (main sources fs)) locale !! key = Some text ∧
           blankText text = true).
Proof.
  intros Hlocale Hne Hkey.
  rewrite main_lookup, bool_decide_eq_true_2 by done. split.
  - intros (entries & (_ & _ & Hlisted)%computedBatch_listed & [text Htext]).
    destruct (Hlisted key text Htext) as (_ & _ & Hneeds).
    eexists. split; [done|]. by rewrite rebuiltText_blank_iff.
  - intros (text & [= <-] & Hblank). rewrite rebuiltText_blank_iff in Hblank by done.
    destruct (computedBatch_lists sources fs locale key Hlocale Hkey Hblank)
      as (entries & ? & ?).
    exists entries. eauto.
Qed.

Lemma listed_iff_blank_witness :
  (∃ entries, computedBatch helloSource spaceFrench !! "fr" = Some entries ∧
              is_Some (entries !! "Hello")) ↔
  (∃ text, loadTranslationFile (final (main helloSource spaceFrench)) "fr"
             !! "Hello" = Some text ∧
           blankText text = true).
Proof.
  apply (listed_iff_blank helloSource spaceFrench "fr" "Hello").
  - apply (bool_decide_unpack _). vm_compute. exact I.
  - done.
  - apply (bool_decide_unpack _). vm_compute. exact I.
Defined.


End sync_extras.

(** ** What a merge run writes *)

Section merge_loop_facts.
Import Merge.
Implicit Types (fs : fileSystem) (data : gmap string batchValue)
  (locale key text : string) (entry : string * batchValue)
  (entries : list (string * batchValue)) (kvs : list (string * string))
  (current newTranslations : gmap string string).

Lemma mergeEntry_lookup_skip kvs key : ∀ acc,
  (∀ text, (key, text) ∈ kvs → blankText text = true) →
  (foldl mergeEntry acc kvs).1 !! key = acc.1 !! key.
Proof.
  induction kvs as [|[k v] kvs IH]; intros acc Hblank; [done|].
  cbn [foldl]. rewrite IH by (intros text ?; apply Hblank; by right).
  unfold mergeEntry. cbn [fst snd].
  destruct (blankText v) eqn:Hv; [done|]. cbn [negb fst].
  destruct (decide (k = key)) as [->|Hne]; [|by rewrite lookup_insert_ne].
  rewrite (Hblank v) in Hv by by left. done.
Qed.

Lemma mergeEntry_lookup_hit kvs key text : ∀ acc,
  NoDup kvs.*1 → (key, text) ∈ kvs → blankText text = false →
  (foldl mergeEntry acc kvs).1 !! key = Some text.
Proof.
  induction kvs as [|[k v] kvs IH]; intros acc Hnd Hin Htext.
  { by apply not_elem_of_nil in Hin. }
  rewrite fmap_cons in Hnd. apply NoDup_cons in Hnd as [Hk Hnd].
  cbn [foldl]. apply elem_of_cons in Hin as [[= <- <-]|Hin]; [|by apply IH].
  rewrite mergeEntry_lookup_skip.
  - unfold mergeEntry. cbn [fst snd]. rewrite Htext. cbn [negb fst].
    by rewrite lookup_insert_eq.
  - intros t Ht. destruct Hk. apply list_elem_of_fmap. by exists (key, t).
Qed.

Lemma mergeEntry_count kvs : ∀ acc,
  (foldl mergeEntry acc kvs).2
  = acc.2 + length (filter (λ kv, blankText kv.2 = false) kvs).
Proof.
  induction kvs as [|[k v] kvs IH]; intros acc; [simpl; lia|].
  cbn [foldl]. rewrite IH, filter_cons. unfold mergeEntry. cbn [fst snd].
  destruct (blankText v); cbn [negb snd].
  - rewrite decide_False by done. lia.
  - rewrite decide_True by done. simpl. lia.
Qed.

(** The store one locale's entries are merged into. *)
Lemma merged_store_lookup current newTranslations key :
  (foldl mergeEntry (current, 0) (map_to_list newTranslations)).1 !! key
  = match newTranslations !! key with
    | Some text => if blankText text then current !! key else Some text
    | None => current !! key
    end.
Proof.
  destruct (newTranslations !! key) as [text|] eqn:Hkey.
  - destruct (blankText text) eqn:Htext.
    + apply (mergeEntry_lookup_skip _ _ (current, 0)). intros t Ht.
      apply elem_of_map_to_list in Ht. by simplify_eq.
    + apply (mergeEntry_lookup_hit _ _ _ (current, 0));
        [apply NoDup_fst_map_to_list|by apply elem_of_map_to_list|done].
  - apply (mergeEntry_lookup_skip _ _ (current, 0)). intros t Ht.
    apply elem_of_map_to_list in Ht. by simplify_eq.
Qed.

Lemma mergeLocale_stores_ne acc entry locale :
  entry.1 ≠ locale →
  stores (mergeLocale acc entry).1 !! locale = stores acc.1 !! locale.
Proof.
  intros Hne. unfold mergeLocale. destruct entry.2; [done|].
  destruct (loadTranslationFile acc.1 entry.1); [|done].
  unfold saveTranslationFile. cbn [fst stores]. by rewrite lookup_insert_ne.
Qed.

Lemma load_stores_eq fs fs' locale :
  stores fs' !! locale = stores fs !! locale →
  loadTranslationFile fs' locale = loadTranslationFile fs locale.
Proof. unfold loadTranslationFile. by intros ->. Qed.

(** A locale whose store does not load, or that the batch does not name,
    keeps its file through the loop. *)
Lemma merge_loop_untouched entries locale : ∀ acc,
  (loadTranslationFile acc.1 locale = None ∨ locale ∉ entries.*1) →
  stores (foldl mergeLocale acc entries).1 !! locale = stores acc.1 !! locale.
Proof.
  induction entries as [|entry entries IH]; intros acc Hcase; [done|].
  cbn [foldl].
  assert (stores (mergeLocale acc entry).1 !! locale = stores acc.1 !! locale)
    as Hstep.
  { destruct (decide (entry.1 = locale)) as [Heq|Hne];
      [|by apply mergeLocale_stores_ne].
    destruct Hcase as [Hnone|Hnot].
    - unfold mergeLocale. destruct entry.2; [done|]. by rewrite Heq, Hnone.
    - destruct Hnot. rewrite fmap_cons, Heq. by left. }
  rewrite IH; [done|].
  destruct Hcase as [Hnone|Hnot].
  - left. by rewrite (load_stores_eq acc.1 _ _ Hstep).
  - right. intros Hin. apply Hnot. rewrite fmap_cons. by right.
Qed.

(** A locale of the batch whose store loads ends with its entries merged
    into that store. *)
Lemma merge_loop_merged entries locale newTranslations current : ∀ acc,
  NoDup entries.*1 →
  (locale, Translations newTranslations) ∈ entries →
  loadTranslationFile acc.1 locale = Some current →
  loadTranslationFile (foldl mergeLocale acc entries).1 locale
  = Some (foldl mergeEntry (current, 0) (map_to_list newTranslations)).1.
Proof.
  induction entries as [|entry entries IH]; intros acc Hnd Hin Hload.
  { by apply not_elem_of_nil in Hin. }
  rewrite fmap_cons in Hnd. apply NoDup_cons in Hnd as [Hfresh Hnd].
  cbn [foldl]. apply elem_of_cons in Hin as [<-|Hin].
  - rewrite (load_stores_eq
               (mergeLocale acc (locale, Translations newTranslations)).1)
      by (apply merge_loop_untouched; by right).
    unfold mergeLocale. cbn [fst snd]. rewrite Hload. cbn [fst].
    unfold loadTranslationFile, saveTranslationFile. cbn [stores].
    rewrite lookup_insert_eq. fold (savedEntries
      (foldl mergeEntry (current, 0) (map_to_list newTranslations)).1).
    by rewrite parseRecord_savedEntries.
  - apply IH; [done..|].
    rewrite (load_stores_eq acc.1); [done|].
    apply mergeLocale_stores_ne. intros Heq. apply Hfresh.
    apply list_elem_of_fmap. exists (locale, Translations newTranslations).
    by rewrite Heq.
Qed.

Lemma mergeLocale_load_status acc entry locale :
  is_Some (loadTranslationFile (mergeLocale acc entry).1 locale)
  ↔ is_Some (loadTranslationFile acc.1 locale).
Proof.
  destruct (decide (entry.1 = locale)) as [<-|Hne].
  - unfold mergeLocale. destruct entry.2; [done|].
    destruct (loadTranslationFile acc.1 entry.1) eqn:Hload; [|by rewrite Hload].
    cbn [fst]. unfold loadTranslationFile at 1, saveTranslationFile. cbn [stores].
    rewrite lookup_insert_eq. split; eauto.
  - by rewrite (load_stores_eq acc.1) by by apply mergeLocale_stores_ne.
Qed.

Lemma mergedOf_status fs fs' entry :
  (is_Some (loadTranslationFile fs' entry.1)
   ↔ is_Some (loadTranslationFile fs entry.1)) →
  mergedOf fs' entry = mergedOf fs entry.
Proof.
  intros Hstatus. unfold mergedOf. destruct entry.2; [done|].
  destruct (loadTranslationFile fs' entry.1) as [m'|],
    (loadTranslationFile fs entry.1) as [m|]; try done.
  - destruct Hstatus as [H _]. by destruct (H (ex_intro _ _ eq_refl)).
  - destruct Hstatus as [_ H]. by destruct (H (ex_intro _ _ eq_refl)).
Qed.

Lemma mergeLocale_count acc entry :
  (mergeLocale acc entry).2 = acc.2 + mergedOf acc.1 entry.
Proof.
  unfold mergeLocale, mergedOf. destruct entry.2; [lia|].
  destruct (loadTranslationFile acc.1 entry.1); [|lia].
  cbn [snd]. by rewrite mergeEntry_count.
Qed.

Lemma merge_loop_count entries : ∀ acc,
  (foldl mergeLocale acc entries).2
  = acc.2 + sum_list (mergedOf acc.1 <$> entries).
Proof.
  induction entries as [|entry entries IH]; intros acc; [simpl; lia|].
  cbn [foldl]. rewrite IH, mergeLocale_count, fmap_cons.
  change (sum_list (mergedOf acc.1 entry :: (mergedOf acc.1 <$> entries)))
    with (mergedOf acc.1 entry + sum_list (mergedOf acc.1 <$> entries)).
  assert (mergedOf (mergeLocale acc entry).1 <$> entries
          = mergedOf acc.1 <$> entries) as ->; [|lia].
  apply list_fmap_ext. intros _ e _. apply mergedOf_status.
  apply mergeLocale_load_status.
Qed.

(** The files after any run: those before it, or those the loop over the
    batch leaves. *)
Lemma main_stores_cases fs :
  final (main fs) = fs ∧ exitCode (result (main fs)) = 1 ∨
  ∃ data,
    pending fs = Some (Batch data) ∧
    validate (map_to_list data) false [] = inr (false, []) ∧
    exitCode (result (main fs)) = 0.
Proof.
  unfold main. destruct (pending fs) as [[|data]|]; [by left| |by left].
  pose proof (validate_spec (map_to_list data) false []) as Hspec.
  destruct (validate (map_to_list data) false []) as [bad|[h items]] eqn:Hval;
    [by left|].
  destruct Hspec as (_ & -> & ->). cbn [orb app] in *.
  case_bool_decide as Hoff; [by left|].
  right. exists data. split; [done|].
  rewrite Hval, Hoff. split; [done|].
  generalize (foldl mergeLocale (fs, 0) (map_to_list data)).
  intros merged. by case_bool_decide.
Qed.
End merge_loop_facts.

Section merge_extras.
Import Merge.
Implicit Types (fs : fileSystem) (data : gmap string batchValue)
  (locale key text : string) (current newTranslations : gmap string string).

Lemma filter_all {A} (P : A → Prop) `{∀ x, Decision (P x)} (l : list A) :
  (∀ x, x ∈ l → P x) → filter P l = l.
Proof.
  induction l as [|x l IH]; intros Hall; [done|].
  rewrite filter_cons, decide_True by (apply Hall; by left).
  f_equal. apply IH. intros y ?. apply Hall. by right.
Qed.

Lemma validate_passes_iff data :
  validate (map_to_list data) false [] = inr (false, []) ↔
  WellShaped data ∧ ∀ locale key, ¬ BlankEntry data locale key.
Proof.
  split.
  - intros Hval.
    pose proof (validate_spec (map_to_list data) false []) as Hspec.
    rewrite Hval in Hspec. destruct Hspec as (Hshape & Hitems & Hflag).
    split; [by apply WellShaped_entries|].
    intros locale key Hblank. cbn [app] in Hitems.
    assert (formatItem locale key ∈ offending (map_to_list data)) as Hin
      by (apply elem_of_offending; eauto).
    rewrite <- Hitems in Hin. by apply not_elem_of_nil in Hin.
  - intros [Hshape Hnone]. rewrite validate_well_shaped by done.
    by rewrite offending_nil, bool_decide_eq_false_2 by (done || by intros []).
Qed.

(** X12: a merge run ends normally exactly when the batch resource is
    present, parses, holds an object of texts under every locale, and has
    no blank text; every run that ends with a non-zero exit status leaves
    all files, the batch included, as they were. *)
Theorem merge_succeeds_iff_complete fs :
  (exitCode (result (main fs)) = 0 ↔
   ∃ data, pending fs = Some (Batch data) ∧ WellShaped data ∧
           ∀ locale key, ¬ BlankEntry data locale key) ∧
  (exitCode (result (main fs)) = 1 → final (main fs) = fs).
Proof.
  destruct (main_stores_cases fs) as [[Hfinal Hexit]|(data & Hp & Hval & Hexit)].
  - split; [|done]. rewrite Hexit. split; [done|].
    intros (data & Hp & Hcomplete%validate_passes_iff). exfalso.
    destruct (main_merged fs data Hp Hcomplete) as (Hresult & _).
    by rewrite Hresult in Hexit.
  - rewrite Hexit. split; [|done]. split; [|done]. intros _.
    exists data. split; [done|]. by apply validate_passes_iff.
Qed.



(** X14: a merge run never creates a store and never repairs one: the
    file of a locale whose store is absent or unparsable, and the file of
    a locale that the batch does not name, are after the run what they
    were before. *)
Theorem merge_leaves_other_stores fs locale :
  (loadTranslationFile fs locale = None ∨
   ∀ data, pending fs = Some (Batch data) → data !! locale = None) →
  stores (final (main fs)) !! locale = stores fs !! locale.
Proof.
  intros Hcase.
  destruct (main_stores_cases fs) as [[-> _]|(data & Hp & Hval & _)]; [done|].
  destruct (main_merged fs data Hp Hval) as (_ & -> & _).
  apply (merge_loop_untouched (map_to_list data) locale (fs, 0)).
  destruct Hcase as [Hnone|Hnot]; [by left|right].
  specialize (Hnot data Hp). intros ([l v] & -> & Hin)%list_elem_of_fmap.
  apply elem_of_map_to_list in Hin. cbn [fst] in Hnot. by rewrite Hnot in Hin.
Qed.

Lemma merge_leaves_other_stores_witness :
  stores (final (main frenchBatch)) !! "de" = stores frenchBatch !! "de".
Proof.
  apply (merge_leaves_other_stores frenchBatch "de").
  left. reflexivity.
Defined.

(** X15: the count a successful merge reports is the number of batch
    entries under the locales whose store loads; the entries of a locale
    whose store is absent or unparsable are not counted (and not
    written). *)
Theorem merged_count fs data :
  pending fs = Some (Batch data) →
  WellShaped data → (∀ locale key, ¬ BlankEntry data locale key) →
  result (main fs) = Merged (sum_list (mergedOf fs <$> map_to_list data)) ∧
  ∀ locale newTranslations,
    data !! locale = Some (Translations newTranslations) →
    mergedOf fs (locale, Translations newTranslations)
    = match loadTranslationFile fs locale with
      | Some _ => size newTranslations
      | None => 0
      end.
Proof.
  intros Hp Hshape Hnone.
  assert (validate (map_to_list data) false [] = inr (false, [])) as Hval
    by (by apply validate_passes_iff).
  destruct (main_merged fs data Hp Hval) as (-> & _ & _). split.
  - f_equal. apply (merge_loop_count (map_to_list data) (fs, 0)).
  - intros locale newTranslations Hdata. unfold mergedOf. cbn [fst snd].
    destruct (loadTranslationFile fs locale); [|done].
    rewrite <- length_map_to_list. f_equal. apply filter_all.
    intros [key text] Hin. apply elem_of_map_to_list in Hin.
    apply not_true_is_false. intros Hblank.
    destruct (Hnone locale key). by exists newTranslations, text.
Qed.

Lemma frenchData_well_shaped : WellShaped frenchData.
Proof.
  intros locale. unfold frenchData.
  destruct (decide (locale = "fr")) as [->|Hne].
  - by rewrite lookup_singleton_eq.
  - by rewrite lookup_singleton_ne.
Qed.

Lemma frenchData_no_blank locale key : ¬ BlankEntry frenchData locale key.
Proof.
  intros (translations & text & Hdata & Hkey & Hblank).
  unfold frenchData in Hdata.
  destruct (decide (locale = "fr")) as [->|Hne];
    [|by rewrite lookup_singleton_ne in Hdata].
  rewrite lookup_singleton_eq in Hdata. injection Hdata as <-.
  destruct (decide (key = "Hello")) as [->|Hne];
    [|by rewrite lookup_singleton_ne in Hkey].
  rewrite lookup_singleton_eq in Hkey. injection Hkey as <-.
  vm_compute in Hblank. discriminate Hblank.
Qed.

Lemma merged_count_witness :
  result (main frenchBatch)
  = Merged (sum_list (mergedOf frenchBatch <$> map_to_list frenchData)) ∧
  ∀ locale newTranslations,
    frenchData !! locale = Some (Translations newTranslations) →
    mergedOf frenchBatch (locale, Translations newTranslations)
    = match loadTranslationFile frenchBatch locale with
      | Some _ => size newTranslations
      | None => 0
      end.
Proof.
  apply (merged_count frenchBatch frenchData).
  - reflexivity.
  - apply frenchData_well_shaped.
  - apply frenchData_no_blank.
Defined.
End merge_extras.

(** ** Synchronize, translate, merge, synchronize *)

Section merge_after_sync.
Implicit Types (fs : fileSystem) (data : gmap string batchValue)
  (locale key text : string) (sources : list string).

Lemma rejected_when_blank fs data locale key :
  pending fs = Some (Batch data) → WellShaped data →
  BlankEntry data locale key →
  Merge.result (Merge.main fs) = Merge.Untranslated (offending (map_to_list data)) ∧
  offending (map_to_list data) ≠ [] ∧
  Merge.final (Merge.main fs) = fs.
Proof.
  intros Hp Hshape Hblank.
  assert (offending (map_to_list data) ≠ []) as Hoff.
  { intros Hnil.
    assert (Merge.formatItem locale key ∈ offending (map_to_list data)) as Hin
      by (apply elem_of_offending; eauto).
    rewrite Hnil in Hin. by apply not_elem_of_nil in Hin. }
  unfold Merge.main. rewrite Hp, validate_well_shaped by done.
  by rewrite bool_decide_eq_true_2.
Qed.

Lemma WellShaped_fmap (batch : gmap string (gmap string string)) :
  WellShaped (Translations <$> batch).
Proof. intros locale. rewrite lookup_fmap. by destruct (batch !! locale). Qed.


End merge_after_sync.

Lemma merge_loop_merged_record entries locale newTranslations current : ∀ acc,
  NoDup entries.*1 →
  (locale, Translations newTranslations) ∈ entries →
  Merge.loadTranslationFile acc.1 locale = Some current →
  stores (foldl Merge.mergeLocale acc entries).1 !! locale
  = Some (Record (savedEntries
            (foldl Merge.mergeEntry (current, 0) (map_to_list newTranslations)).1)).
Proof.
  induction entries as [|entry entries IH]; intros acc Hnd Hin Hload.
  { by apply not_elem_of_nil in Hin. }
  rewrite fmap_cons in Hnd. apply NoDup_cons in Hnd as [Hfresh Hnd].
  cbn [foldl]. apply elem_of_cons in Hin as [<-|Hin].
  - rewrite merge_loop_untouched by by right.
    unfold Merge.mergeLocale. cbn [fst snd]. rewrite Hload. cbn [fst].
    unfold Merge.saveTranslationFile. cbn [stores].
    by rewrite lookup_insert_eq.
  - apply IH; [done..|].
    rewrite (load_stores_eq acc.1); [done|].
    apply mergeLocale_stores_ne. intros Heq. apply Hfresh.
    apply list_elem_of_fmap. exists (locale, Translations newTranslations).
    by rewrite Heq.
Qed.

Section workflow.
Implicit Types (locale key text : string).

Variables (sources : list string) (fs : fileSystem)
  (filled : gmap string (gmap string string)).
Hypothesis Hfilled : Completes (Update.computedBatch sources fs) filled.

(** The files after the first run, after the translator filled the batch,
    and after the merge. *)
Let synced : fileSystem := Update.final (Update.main sources fs).
Let translated : fileSystem := withBatch synced filled.
Let merged : fileSystem := Merge.final (Merge.main translated).

Let existing : list string :=
  objectKeys (Update.loadTranslationFile fs Update.CANONICAL_LOCALE).

Lemma update_load_of_merge_load fs' locale current :
  Merge.loadTranslationFile fs' locale = Some current →
  Update.loadTranslationFile fs' locale = current.
Proof.
  unfold Merge.loadTranslationFile, Update.loadTranslationFile.
  destruct (stores fs' !! locale) as [[|entries]|]; [done| |done].
  by intros [= <-].
Qed.

Lemma translated_loads locale :
  locale ∈ Update.SUPPORTED_LOCALES →
  Merge.loadTranslationFile translated locale
  = Some (Update.loadTranslationFile synced locale).
Proof.
  intros Hlocale. unfold Merge.loadTranslationFile, Update.loadTranslationFile.
  unfold translated, withBatch. cbn [stores]. unfold synced.
  by rewrite main_stores, bool_decide_eq_true_2.
Qed.

Lemma filled_complete :
  WellShaped (Translations <$> filled) ∧
  ∀ locale key, ¬ BlankEntry (Translations <$> filled) locale key.
Proof.
  split; [apply WellShaped_fmap|].
  intros locale key (entries & text & Hdata & Hkey & Hblank).
  rewrite lookup_fmap in Hdata.
  destruct (filled !! locale) as [e|] eqn:He; [|done].
  injection Hdata as ->.
  destruct Hfilled as [_ Hall]. destruct (Hall locale entries He) as [_ Htexts].
  by rewrite (Htexts key text Hkey) in Hblank.
Qed.

Lemma filled_locale locale entries :
  filled !! locale = Some entries →
  locale ∈ Update.SUPPORTED_LOCALES ∧ locale ≠ Update.CANONICAL_LOCALE ∧
  entries ≠ ∅ ∧
  ∃ listed,
    Update.computedBatch sources fs !! locale = Some listed ∧
    dom entries = dom listed ∧
    ∀ key, is_Some (listed !! key) → key ∈ Update.extractAllTrKeys sources.
Proof.
  intros He. destruct Hfilled as [_ Hall].
  destruct (Hall locale entries He) as [(listed & Hlisted & Hdom) _].
  destruct (computedBatch_listed _ _ _ _ Hlisted) as (Hlocale & Hne & Hkeys).
  assert (∃ key text, listed !! key = Some text) as (k & t & Hk)
    by (destruct (map_choose _ Hne) as (k & t & ?); eauto).
  split; [done|]. split.
  { destruct (Hkeys k t Hk) as (_ & _ & Hneeds).
    by apply needsTranslation_not_canonical in Hneeds. }
  split.
  { intros ->. rewrite dom_empty_L in Hdom. symmetry in Hdom.
    by apply dom_empty_inv_L in Hdom. }
  exists listed. do 2 (split; [done|]).
  intros key [text Htext]. by destruct (Hkeys key text Htext) as (_ & ? & _).
Qed.

Lemma merged_stores :
  stores merged
  = stores (foldl Merge.mergeLocale (translated, 0)
              (map_to_list (Translations <$> filled))).1 ∧
  pending merged
  = if bool_decide
         (0 < (foldl Merge.mergeLocale (translated, 0)
                 (map_to_list (Translations <$> filled))).2)
    then None else pending translated.
Proof.
  destruct filled_complete as [Hshape Hnone].
  assert (Merge.validate (map_to_list (Translations <$> filled)) false []
          = inr (false, [])) as Hval by (by apply validate_passes_iff).
  destruct (main_merged translated (Translations <$> filled) eq_refl Hval)
    as (_ & ? & ?).
  done.
Qed.

(** The store of a supported locale after the merge. *)
Lemma merged_lookup locale key :
  locale ∈ Update.SUPPORTED_LOCALES →
  Update.loadTranslationFile merged locale !! key
  = match filled !! locale with
    | Some entries =>
        match entries !! key with
        | Some text => Some text
        | None => Update.loadTranslationFile synced locale !! key
        end
    | None => Update.loadTranslationFile synced locale !! key
    end.
Proof.
  intros Hlocale. destruct merged_stores as [Hstores _].
  destruct (filled !! locale) as [entries|] eqn:He.
  - rewrite (update_load_of_merge_load merged locale
      (foldl Merge.mergeEntry (Update.loadTranslationFile synced locale, 0)
         (map_to_list entries)).1).
    + rewrite merged_store_lookup.
      destruct (entries !! key) as [text|] eqn:Hkey; [|done].
      destruct Hfilled as [_ Hall]. destruct (Hall locale entries He) as [_ Htexts].
      by rewrite (Htexts key text Hkey).
    + rewrite (load_stores_eq
        (foldl Merge.mergeLocale (translated, 0)
           (map_to_list (Translations <$> filled))).1) by (by rewrite Hstores).
      apply (merge_loop_merged _ locale entries _ (translated, 0)).
      * apply NoDup_fst_map_to_list.
      * apply elem_of_map_to_list. by rewrite lookup_fmap, He.
      * by apply translated_loads.
  - f_equal. unfold Update.loadTranslationFile.
    rewrite Hstores.
    rewrite (merge_loop_untouched _ locale (translated, 0)); [done|].
    right. intros ([l v] & -> & Hin)%list_elem_of_fmap.
    apply elem_of_map_to_list in Hin. rewrite lookup_fmap in Hin.
    cbn [fst] in He. by rewrite He in Hin.
Qed.

Lemma synced_lookup locale key :
  locale ∈ Update.SUPPORTED_LOCALES →
  Update.loadTranslationFile synced locale !! key
  = if bool_decide (key ∈ Update.extractAllTrKeys sources)
    then Some (rebuiltText locale existing
                 (Update.loadTranslationFile fs locale) key)
    else None.
Proof. intros. by apply main_lookup. Qed.

(** After the merge every canonical key has, in every supported locale
    other than the canonical one, a text that is not blank. *)
Lemma merged_text_not_blank locale key :
  locale ∈ Update.SUPPORTED_LOCALES → locale ≠ Update.CANONICAL_LOCALE →
  key ∈ Update.extractAllTrKeys sources →
  ∃ text, Update.loadTranslationFile merged locale !! key = Some text ∧
          blankText text = false.
Proof.
  intros Hlocale Hne Hkey. rewrite merged_lookup by done.
  assert ((∀ listed, Update.computedBatch sources fs !! locale = Some listed →
             listed !! key = None) →
          ∃ text, Update.loadTranslationFile synced locale !! key = Some text ∧
                  blankText text = false) as Hkept.
  { intros Hnot. rewrite synced_lookup, bool_decide_eq_true_2 by done.
    eexists. split; [done|]. rewrite rebuiltText_blank_iff by done.
    apply not_true_is_false. intros Hneeds.
    destruct (computedBatch_lists sources fs locale key Hlocale Hkey Hneeds)
      as (listed & Hlisted & Hl).
    by rewrite (Hnot listed Hlisted) in Hl. }
  destruct (filled !! locale) as [entries|] eqn:He.
  - destruct (entries !! key) as [text|] eqn:Hk.
    + exists text. split; [done|].
      destruct Hfilled as [_ Hall]. destruct (Hall locale entries He) as [_ Htexts].
      by apply (Htexts key).
    + apply Hkept. intros listed Hlisted.
      destruct (filled_locale locale entries He)
        as (_ & _ & _ & listed' & Hlisted' & Hdom & _).
      simplify_eq. apply not_elem_of_dom. rewrite <- Hdom.
      by apply not_elem_of_dom.
  - apply Hkept. intros listed Hlisted. exfalso.
    destruct Hfilled as [Hdom _].
    assert (locale ∈ dom filled) as Hin
      by (rewrite Hdom; apply elem_of_dom; eauto).
    apply elem_of_dom in Hin as [? Hin]. by rewrite He in Hin.
Qed.

Lemma merged_canonical :
  Update.loadTranslationFile merged Update.CANONICAL_LOCALE
  = Update.loadTranslationFile synced Update.CANONICAL_LOCALE.
Proof.
  apply map_eq. intros key. rewrite merged_lookup by apply canonical_supported.
  destruct (filled !! Update.CANONICAL_LOCALE) as [entries|] eqn:He; [|done].
  by destruct (filled_locale _ _ He) as (_ & Hne & _).
Qed.

Lemma merged_existing key :
  key ∈ objectKeys (Update.loadTranslationFile merged Update.CANONICAL_LOCALE)
  ↔ key ∈ Update.extractAllTrKeys sources.
Proof.
  rewrite merged_canonical, elem_of_objectKeys,
    synced_lookup by apply canonical_supported.
  case_bool_decide; [by split; eauto|]. split; [by intros [? ?]|done].
Qed.

Lemma merged_nothing_to_translate : Update.computedBatch sources merged = ∅.
Proof.
  apply computedBatch_empty_iff. intros locale key Hlocale Hkey.
  unfold needsTranslation.
  destruct (decide (locale = Update.CANONICAL_LOCALE)) as [->|Hne].
  { by rewrite bool_decide_eq_true_2. }
  rewrite bool_decide_eq_false_2 by done.
  rewrite bool_decide_eq_true_2 by by apply merged_existing.
  destruct (merged_text_not_blank locale key Hlocale Hne Hkey)
    as (text & -> & Hblank).
  cbn. by rewrite Hblank.
Qed.

Lemma merged_keys locale key :
  locale ∈ Update.SUPPORTED_LOCALES →
  key ∉ Update.extractAllTrKeys sources →
  Update.loadTranslationFile merged locale !! key = None.
Proof.
  intros Hlocale Hkey. rewrite merged_lookup by done.
  assert (Update.loadTranslationFile synced locale !! key = None) as Hsynced
    by (by rewrite synced_lookup, bool_decide_eq_false_2).
  destruct (filled !! locale) as [entries|] eqn:He; [|done].
  destruct (entries !! key) as [text|] eqn:Hk; [|done].
  destruct (filled_locale locale entries He)
    as (_ & _ & _ & listed & _ & Hdom & Hsub).
  destruct Hkey. apply Hsub. apply elem_of_dom. rewrite <- Hdom.
  apply elem_of_dom. eauto.
Qed.

(** A supported locale's file after the merge is the record of the store
    it loads to. *)
Lemma merged_record locale :
  locale ∈ Update.SUPPORTED_LOCALES →
  stores merged !! locale
  = Some (Record (savedEntries (Update.loadTranslationFile merged locale))).
Proof.
  intros Hlocale.
  assert (∀ fs' m, stores fs' !! locale = Some (Record (savedEntries m)) →
            stores fs' !! locale
            = Some (Record (savedEntries (Update.loadTranslationFile fs' locale))))
    as Hrecord.
  { intros fs' m Hm. unfold Update.loadTranslationFile. rewrite Hm.
    by rewrite parseRecord_savedEntries. }
  destruct merged_stores as [Hstores _].
  destruct (filled !! locale) as [entries|] eqn:He.
  - apply (Hrecord _ (foldl Merge.mergeEntry
                        (Update.loadTranslationFile synced locale, 0)
                        (map_to_list entries)).1).
    rewrite Hstores.
    apply (merge_loop_merged_record _ locale entries _ (translated, 0)).
    + apply NoDup_fst_map_to_list.
    + apply elem_of_map_to_list. by rewrite lookup_fmap, He.
    + by apply translated_loads.
  - apply (Hrecord _ (Update.loadTranslationFile synced locale)).
    rewrite Hstores.
    rewrite (merge_loop_untouched _ locale (translated, 0)).
    + unfold translated, withBatch. cbn [fst stores]. unfold synced.
      rewrite main_stores, bool_decide_eq_true_2 by done.
      do 3 f_equal. symmetry. by apply main_load.
    + right. intros ([l v] & -> & Hin)%list_elem_of_fmap.
      apply elem_of_map_to_list in Hin. rewrite lookup_fmap in Hin.
      cbn [fst] in He. by rewrite He in Hin.
Qed.

Lemma merged_unchanged_by_sync :
  stores (Update.final (Update.main sources merged)) = stores merged.
Proof.
  apply map_eq. intros locale. rewrite main_stores.
  case_bool_decide as Hlocale; [|done].
  rewrite merged_record by done. do 3 f_equal.
  apply map_eq. intros key. rewrite rebuiltStore_lookup.
  case_bool_decide as Hkey; [|by rewrite merged_keys].
  unfold rebuiltText. rewrite bool_decide_eq_true_2 by by apply merged_existing.
  destruct (decide (locale = Update.CANONICAL_LOCALE)) as [->|Hne].
  - rewrite bool_decide_eq_true_2 by done. rewrite merged_canonical.
    rewrite synced_lookup, bool_decide_eq_true_2
      by (done || apply canonical_supported).
    f_equal.
    destruct (rebuiltText Update.CANONICAL_LOCALE existing
                (Update.loadTranslationFile fs Update.CANONICAL_LOCALE) key)
      as [|c text] eqn:Htext; [|done].
    cbn. unfold rebuiltText in Htext.
    rewrite !(bool_decide_eq_true_2 (_ = _)) in Htext by done.
    destruct (bool_decide (key ∈ existing)); [|done].
    by apply orElse_empty in Htext.
  - destruct (merged_text_not_blank locale key Hlocale Hne Hkey)
      as (text & -> & Hblank).
    f_equal. apply orElse_truthy. intros ->. done.
Qed.

Lemma mergedOf_le_sum fs' entries entry :
  entry ∈ entries → mergedOf fs' entry ≤ sum_list (mergedOf fs' <$> entries).
Proof.
  induction entries as [|e entries IH]; intros Hin.
  { by apply not_elem_of_nil in Hin. }
  rewrite fmap_cons.
  change (sum_list (mergedOf fs' e :: (mergedOf fs' <$> entries)))
    with (mergedOf fs' e + sum_list (mergedOf fs' <$> entries)).
  apply elem_of_cons in Hin as [->|Hin]; [lia|]. specialize (IH Hin). lia.
Qed.

Lemma merged_batch_retired :
  Update.computedBatch sources fs ≠ ∅ → pending merged = None.
Proof.
  intros Hne. destruct merged_stores as [_ ->].
  rewrite bool_decide_eq_true_2; [done|].
  rewrite (merge_loop_count _ (translated, 0)). cbn [fst snd].
  destruct (map_choose _ Hne) as (locale & listed & Hlisted).
  destruct Hfilled as [Hdom _].
  assert (locale ∈ dom filled) as [entries He]%elem_of_dom
    by (rewrite Hdom; apply elem_of_dom; eauto).
  destruct (filled_locale locale entries He) as (Hlocale & _ & Hsome & _).
  pose proof (mergedOf_le_sum translated
    (map_to_list (Translations <$> filled)) (locale, Translations entries)) as Hle.
  assert (0 < mergedOf translated (locale, Translations entries)) as Hpos.
  { unfold mergedOf. cbn [fst snd]. rewrite translated_loads by done.
    rewrite filter_all.
    - rewrite length_map_to_list. apply map_size_non_empty_iff in Hsome. lia.
    - intros [k t] Hin. apply elem_of_map_to_list in Hin.
      destruct filled_complete as [_ Hnone].
      apply not_true_is_false. intros Hblank. destruct (Hnone locale k).
      exists entries, t. by rewrite lookup_fmap, He. }
  assert ((locale, Translations entries) ∈ map_to_list (Translations <$> filled))
    as Hin by (apply elem_of_map_to_list; by rewrite lookup_fmap, He).
  specialize (Hle Hin). lia.
Qed.

End workflow.

Lemma frenchFilled_completes :
  Completes (Update.computedBatch helloSource frenchMissing) frenchFilled.
Proof.
  assert (Update.computedBatch helloSource frenchMissing
          = {[ "fr" := {[ "Hello" := EmptyString ]} ]}) as ->
    by (vm_compute; reflexivity).
  split; [by rewrite !dom_singleton_L|].
  intros locale entries. unfold frenchFilled.
  destruct (decide (locale = "fr")) as [->|Hne];
    [|by rewrite lookup_singleton_ne].
  rewrite lookup_singleton_eq. intros [= <-]. split.
  - exists {[ "Hello" := EmptyString ]}. rewrite lookup_singleton_eq.
    split; [done|]. by rewrite !dom_singleton_L.
  - intros key text.
    destruct (decide (key = "Hello")) as [->|Hne];
      [|by rewrite lookup_singleton_ne].
    rewrite lookup_singleton_eq. intros [= <-]. vm_compute. reflexivity.
Qed.


(** ** Which files are scanned *)

Section traversal.
Import Traversal.
Implicit Types (dir path : list string) (entries : list dirEntry)
  (entry : dirEntry) (name content key : string).

Lemma dirEntry_induction (P : dirEntry → Prop) :
  (∀ name content, P (File name content)) →
  (∀ name entries, Forall P entries → P (Directory name entries)) →
  (∀ name, P (Special name)) →
  ∀ entry, P entry.
Proof.
  intros HF HD HS. fix IH 1. intros [name content|name entries|name].
  - apply HF.
  - apply HD. induction entries as [|entry entries IHentries]; constructor.
    + apply IH.
    + apply IHentries.
  - apply HS.
Qed.

Lemma scanEntry_directory dir name entries :
  scanEntry dir (Directory name entries)
  = if isSkippedDirectory name then []
    else entries ≫= scanEntry (dir ++ [name]).
Proof.
  cbn [scanEntry]. destruct (isSkippedDirectory name); [done|].
  induction entries as [|entry entries IH]; [done|].
  cbn [mbind list_bind]. by rewrite IH.
Qed.

Lemma Finds_singleton dir entries path content :
  Finds dir entries path content ↔
  ∃ entry, entry ∈ entries ∧ Finds dir [entry] path content.
Proof.
  split.
  - inversion 1 as [? ? n c Hin Hname|? ? n inner ? ? Hin Hskip Hsub]; subst.
    + eexists. split; [exact Hin|].
      apply Finds_file; [apply list_elem_of_here|done].
    + eexists. split; [exact Hin|].
      apply (Finds_directory _ _ n inner); [apply list_elem_of_here|done..].
  - intros (entry & Hentry & Hf).
    inversion Hf as [? ? n c Hin Hname|? ? n inner ? ? Hin Hskip Hsub]; subst;
      apply list_elem_of_singleton in Hin; subst.
    + by apply Finds_file.
    + by apply (Finds_directory _ _ n inner).
Qed.

Lemma elem_of_scanEntry entry : ∀ dir path content,
  (path, content) ∈ scanEntry dir entry ↔ Finds dir [entry] path content.
Proof.
  induction entry as [name c|name entries IH|name] using dirEntry_induction;
    intros dir path content.
  - cbn [scanEntry]. split.
    + destruct (isSourceName name) eqn:Hname;
        [|by intros ?%not_elem_of_nil].
      intros [= -> ->]%list_elem_of_singleton.
      apply Finds_file; [apply list_elem_of_here|done].
    + inversion 1 as [? ? n c' Hin Hname|? ? n inner ? ? Hin]; subst.
      * apply list_elem_of_singleton in Hin. injection Hin as -> ->.
        rewrite Hname. apply list_elem_of_here.
      * by apply list_elem_of_singleton in Hin.
  - rewrite scanEntry_directory. rewrite Forall_forall in IH. split.
    + destruct (isSkippedDirectory name) eqn:Hskip;
        [by intros ?%not_elem_of_nil|].
      intros (entry & Hentry & Hin)%list_elem_of_bind.
      apply (IH entry Hin) in Hentry.
      apply (Finds_directory _ _ name entries); [apply list_elem_of_here|done|].
      apply Finds_singleton. by exists entry.
    + inversion 1 as [? ? n c' Hin Hname|? ? n inner ? ? Hin Hskip Hsub]; subst.
      { by apply list_elem_of_singleton in Hin. }
      apply list_elem_of_singleton in Hin. injection Hin as -> ->.
      rewrite Hskip.
      apply Finds_singleton in Hsub as (entry & Hentry & Hsub).
      apply list_elem_of_bind. exists entry. split; [|done]. by apply IH.
  - cbn [scanEntry]. split; [by intros ?%not_elem_of_nil|].
    inversion 1 as [? ? n c' Hin Hname|? ? n inner ? ? Hin]; subst;
      by apply list_elem_of_singleton in Hin.
Qed.

(** X18: the traversal returns exactly the regular files with a source
    extension ([.ts], [.tsx], [.js], [.jsx]) that can be reached from the
    directory without passing through a directory named [node_modules],
    [build] or [.git], at any depth; other files, and entries that are
    neither files nor directories, are never returned. *)
Theorem found_files_exact dir entries path content :
  (path, content) ∈ findSourceFiles dir entries ↔ Finds dir entries path content.
Proof.
  unfold findSourceFiles. rewrite list_elem_of_bind, Finds_singleton. split.
  - intros (entry & Hin & Hentry). exists entry. split; [done|].
    by apply elem_of_scanEntry.
  - intros (entry & Hentry & Hf). exists entry. split; [|done].
    by apply elem_of_scanEntry.
Qed.

(** X19: the canonical keys of an application directory are the keys of
    the source files the traversal reaches: a call in a file under a
    skipped directory, or in a file without a source extension,
    contributes no key. *)
Theorem keys_of_directory dir entries key :
  key ∈ extractAllTrKeysIn dir entries ↔
  ∃ path content,
    Finds dir entries path content ∧
    key ∈ Scanner.extractTrCallsFromFile content.
Proof.
  unfold extractAllTrKeysIn, Update.extractAllTrKeys.
  rewrite elem_of_sortKeys, elem_of_union_fold. split.
  - intros [Hnil|(content & Hin & Hkey)]; [by apply not_elem_of_nil in Hnil|].
    apply list_elem_of_fmap in Hin as ([path c] & -> & Hin).
    exists path, c. split; [|done].
    unfold findSourceFiles in Hin.
    apply list_elem_of_bind in Hin as (entry & Hin & Hentry).
    apply Finds_singleton. exists entry. split; [done|].
    by apply elem_of_scanEntry.
  - intros (path & content & Hf & Hkey). right. exists content. split; [|done].
    apply list_elem_of_fmap. exists (path, content). split; [done|].
    apply Finds_singleton in Hf as (entry & Hentry & Hf).
    unfold findSourceFiles. apply list_elem_of_bind. exists entry.
    split; [|done]. by apply elem_of_scanEntry.
Qed.

Example sampleApp_files :
  findSourceFiles ["app"] sampleApp
  = [(["app"; "routes"; "index.tsx"], "tr('Hello')")] ∧
  extractAllTrKeysIn ["app"] sampleApp = ["Hello"].
Proof. vm_compute. done. Qed.
End traversal.

(** ** What the application renders *)

Section rendering.
Implicit Types (locale key text : string) (sources : list string)
  (fs : fileSystem).

Variable replaceParam : string → string → string → string.

Lemma tr_lookup (translations : gmap string string) key :
  Runtime.tr replaceParam translations key None
  = match translations !! key with
    | Some text => if blankText text then key else text
    | None => key
    end.
Proof. reflexivity. Qed.


End rendering.


(** ** The wrapper's output and the scanner *)

Section wrapper.
Import Wrap Scanner.
Implicit Types (s t text : string) (c x : ascii).

Lemma hasChar_rev_app c s t :
  hasChar c (String.rev_app s t) = hasChar c s || hasChar c t.
Proof.
  revert t. induction s as [|y s IH]; intros t; [done|].
  simpl. rewrite IH. simpl.
  destruct (Ascii.eqb y c), (hasChar c s), (hasChar c t); done.
Qed.

Lemma hasChar_rev c s : hasChar c (String.rev s) = hasChar c s.
Proof. unfold String.rev. rewrite hasChar_rev_app. simpl. by rewrite orb_false_r. Qed.

Lemma hasChar_trimStart c s :
  hasChar c (trimStart s) = true → hasChar c s = true.
Proof.
  induction s as [|y s IH]; [done|]. simpl.
  destruct (isSpace y); [|done]. intros ->%IH. by rewrite orb_true_r.
Qed.

Lemma hasChar_trimStart_keeps c s :
  isSpace c = false → hasChar c s = true → hasChar c (trimStart s) = true.
Proof.
  intros Hc. induction s as [|y s IH]; [done|]. simpl.
  destruct (isSpace y) eqn:Hy; [|done].
  destruct (Ascii.eqb y c) eqn:Hyc; [|done].
  apply Ascii.eqb_eq in Hyc as ->. congruence.
Qed.

Lemma hasChar_trim c s : hasChar c (trim s) = true → hasChar c s = true.
Proof.
  unfold trim, trimEnd. rewrite hasChar_rev.
  intros H%hasChar_trimStart. rewrite hasChar_rev in H.
  by apply hasChar_trimStart.
Qed.

Lemma hasChar_trim_keeps c s :
  isSpace c = false → hasChar c s = true → hasChar c (trim s) = true.
Proof.
  intros Hc Hs. unfold trim, trimEnd. rewrite hasChar_rev.
  apply hasChar_trimStart_keeps; [done|]. rewrite hasChar_rev.
  by apply hasChar_trimStart_keeps.
Qed.

Lemma replaceChar_absent c replacement s :
  hasChar c s = false → replaceChar c replacement s = s.
Proof.
  induction s as [|y s IH]; [done|]. simpl.
  intros [Hy Hs]%orb_false_elim. rewrite Hy. by rewrite IH.
Qed.

Lemma hasChar_remove c x s :
  hasChar c (replaceChar x EmptyString s)
  = hasChar c s && negb (Ascii.eqb x c).
Proof.
  induction s as [|y s IH]; [done|]. simpl.
  destruct (Ascii.eqb y x) eqn:Hyx.
  - apply Ascii.eqb_eq in Hyx as ->. rewrite app_empty_l, IH.
    by destruct (Ascii.eqb x c), (hasChar c s).
  - simpl. rewrite IH. destruct (Ascii.eqb y c) eqn:Hyc; [|done].
    apply Ascii.eqb_eq in Hyc as ->. by rewrite (Ascii.eqb_sym x c), Hyx.
Qed.

Lemma hasChar_collapse c s : ∀ inRun,
  hasChar c (collapseFrom inRun s) = true →
  c = " "%char ∨ (isSpace c = false ∧ hasChar c s = true).
Proof.
  induction s as [|y s IH]; intros inRun; [done|]. cbn [collapseFrom hasChar].
  destruct (isSpace y) eqn:Hy.
  - destruct inRun.
    + intros [?|[? Hs]]%IH; [by left|right]. by rewrite Hs, orb_true_r.
    + cbn [hasChar]. intros [Heq|H]%orb_true_iff.
      * left. by apply Ascii.eqb_eq in Heq.
      * apply IH in H as [?|[? Hs]]; [by left|right].
        by rewrite Hs, orb_true_r.
  - cbn [hasChar]. intros [Heq|H]%orb_true_iff.
    + right. apply Ascii.eqb_eq in Heq as ->. by rewrite Ascii.eqb_refl.
    + apply IH in H as [?|[? Hs]]; [by left|right].
      by rewrite Hs, orb_true_r.
Qed.

Lemma hasChar_collapse_keeps c s : ∀ inRun,
  isSpace c = false → hasChar c s = true →
  hasChar c (collapseFrom inRun s) = true.
Proof.
  induction s as [|y s IH]; intros inRun Hc; [done|].
  cbn [collapseFrom hasChar].
  destruct (Ascii.eqb y c) eqn:Hyc.
  - apply Ascii.eqb_eq in Hyc as ->. rewrite Hc. cbn [hasChar].
    by rewrite Ascii.eqb_refl.
  - cbn [orb]. intros Hs. destruct (isSpace y), inRun; cbn [hasChar];
      rewrite ?Hyc, ?(IH _ Hc Hs), ?orb_true_r; done.
Qed.

Lemma collapse_no_double_space s : ∀ inRun,
  hasPair " " " " (collapseFrom inRun s) = false ∧
  (inRun = true → startsWith " " (collapseFrom inRun s) = false).
Proof.
  induction s as [|y s IH]; intros inRun; [done|]. cbn [collapseFrom].
  destruct (isSpace y) eqn:Hy.
  - destruct inRun; [apply IH|].
    destruct (IH true) as [Hpair Hstart]. split; [|done].
    cbn [hasPair]. by rewrite Hpair, (Hstart eq_refl), andb_false_r.
  - destruct (IH false) as [Hpair _]. cbn [hasPair startsWith].
    assert (Ascii.eqb y " " = false) as Hne.
    { apply Ascii.eqb_neq. intros ->. vm_compute in Hy. discriminate. }
    rewrite Hne, Hpair. done.
Qed.

(** X21: the literal that [wrapInTr] writes is a single line with single
    spaces: whatever the text, it holds no line feed and no carriage
    return, the only whitespace in it is the plain space, and no two
    spaces are adjacent. *)
Theorem wrapped_text_single_line text :
  hasChar newline (safeText text) = false ∧
  hasChar "013" (safeText text) = false ∧
  hasPair " " " " (safeText text) = false ∧
  ∀ c, hasChar c (safeText text) = true → isSpace c = true → c = " "%char.
Proof.
  assert (∀ c, hasChar c (safeText text) = true → isSpace c = true →
            c = " "%char) as Hspace.
  { intros c Hc Hsp. unfold safeText, collapseSpaces in Hc.
    apply hasChar_collapse in Hc as [?|[Hns _]]; [done|congruence]. }
  split; [|split; [|split; [|done]]].
  - apply not_true_is_false. intros Hc. by apply Hspace in Hc.
  - apply not_true_is_false. intros Hc. by apply Hspace in Hc.
  - apply collapse_no_double_space.
Qed.

Lemma Body_of_plain quote s :
  quote ≠ backtick →
  hasChar backslash s = false → hasChar quote s = false →
  hasChar newline s = false → Body quote s s.
Proof.
  intros Hq. induction s as [|y s IH]; [constructor|]. simpl.
  intros [Hb Hbs]%orb_false_elim [Hyq Hqs]%orb_false_elim
    [Hn Hns]%orb_false_elim.
  constructor; [by apply Ascii.eqb_neq..| |by apply IH].
  by intros [? _].
Qed.

Lemma safeText_plain text :
  hasChar dquote text = false → hasChar newline text = false →
  safeText text
  = collapseSpaces (replaceChar "013" EmptyString (trim text)).
Proof.
  intros Hdq Hnl. unfold safeText.
  assert (hasChar dquote (trim text) = false) as Hdq'
    by (apply not_true_is_false; intros H%hasChar_trim; congruence).
  assert (hasChar newline (trim text) = false) as Hnl'
    by (apply not_true_is_false; intros H%hasChar_trim; congruence).
  rewrite (replaceChar_absent dquote) by done.
  by rewrite (replaceChar_absent newline) by done.
Qed.

Lemma safeText_chars text c :
  hasChar dquote text = false → hasChar newline text = false →
  hasChar c (safeText text) = true →
  c = " "%char ∨ hasChar c text = true.
Proof.
  intros Hdq Hnl. rewrite safeText_plain by done. unfold collapseSpaces.
  intros [?|[_ Hc]]%hasChar_collapse; [by left|right].
  rewrite hasChar_remove in Hc.
  apply andb_true_iff in Hc as [Hc _]. by apply hasChar_trim.
Qed.

Lemma onlySpaces_false s :
  onlySpaces s = false → ∃ c, isSpace c = false ∧ hasChar c s = true.
Proof.
  induction s as [|y s IH]; [done|]. simpl.
  destruct (isSpace y) eqn:Hy.
  - intros (c & ? & Hc)%IH. exists c. by rewrite Hc, orb_true_r.
  - intros _. exists y. by rewrite Ascii.eqb_refl.
Qed.

Lemma safeText_nonempty text :
  hasChar dquote text = false → hasChar newline text = false →
  onlySpaces text = false → safeText text ≠ EmptyString.
Proof.
  intros Hdq Hnl (c & Hc & Hin)%onlySpaces_false.
  assert (hasChar c (safeText text) = true) as Hsafe.
  { rewrite safeText_plain by done. unfold collapseSpaces.
    apply hasChar_collapse_keeps; [done|].
    rewrite hasChar_remove.
    apply andb_true_iff. split; [by apply hasChar_trim_keeps|].
    apply negb_true_iff, Ascii.eqb_neq. intros <-. vm_compute in Hc.
    discriminate. }
  intros Hempty. by rewrite Hempty in Hsafe.
Qed.

(** X22: the scanner picks up what the wrapper writes. For a text that
    is not blank and holds no backslash, no double quote and no line feed,
    the call written by [wrapInTr] is scanned to the key that the wrapper
    put between the quotes: the text trimmed, with carriage returns
    removed and each run of whitespace collapsed to one space. *)
Theorem wrapped_text_is_scanned text :
  hasChar backslash text = false → hasChar dquote text = false →
  hasChar newline text = false → onlySpaces text = false →
  safeText text ∈ extractTrCallsFromFile (wrapInTr text) ∧
  safeText text
  = collapseSpaces (replaceChar "013" EmptyString (trim text)).
Proof.
  intros Hbs Hdq Hnl Hblank. split.
  - assert (∀ c, c ≠ " "%char → hasChar c text = false →
              hasChar c (safeText text) = false) as Hno.
    { intros c Hc Htext. apply not_true_is_false.
      intros [?|?]%safeText_chars; [done|congruence|done..]. }
    unfold extractTrCallsFromFile.
    apply (scanLoop_visits _ None "{"
             ("tr(" +:+ String dquote (safeText text +:+ String dquote ")}")) []
             (String dquote (safeText text +:+ String dquote ")}"))); [done| |].
    + apply (matchHere_complete (Some "{"%char) EmptyString); done.
    + apply (literalAt_complete _ dquote (safeText text) ")}"); [done..| |].
      * apply Body_of_plain; [done|by apply Hno..].
      * by apply safeText_nonempty.
  - by apply safeText_plain.
Qed.

Lemma wrapped_text_is_scanned_witness :
  safeText "  Save   changes " ∈ extractTrCallsFromFile (wrapInTr "  Save   changes ") ∧
  safeText "  Save   changes "
  = collapseSpaces (replaceChar "013" EmptyString (trim "  Save   changes ")).
Proof.
  apply (wrapped_text_is_scanned "  Save   changes "); vm_compute; reflexivity.
Defined.

Example wrapInTr_sample :
  wrapInTr "  Save   changes "
  = "{tr(" +:+ String dquote ("Save changes" +:+ String dquote ")}").
Proof. vm_compute. reflexivity. Qed.
End wrapper.

(** ** The completeness test on a text *)

Section blank_test.
Implicit Types (text : string) (c : ascii).

Lemma onlySpaces_chars text :
  onlySpaces text = true ↔ ∀ c, hasChar c text = true → isSpace c = true.
Proof.
  induction text as [|y text IH]; simpl.
  - split; [by intros _ c|done].
  - rewrite andb_true_iff, IH. split.
    + intros [Hy Hall] c [Heq|Hc]%orb_true_iff; [|by apply Hall].
      by apply Ascii.eqb_eq in Heq as <-.
    + intros Hall. split.
      * apply Hall. by rewrite Ascii.eqb_refl.
      * intros c Hc. apply Hall. by rewrite Hc, orb_true_r.
Qed.

(** X23: the test both scripts use to decide that a text still needs a
    translation ([!value || value.trim() === ""]) holds exactly for the
    texts made of whitespace only, the empty text included; a text with
    one character that is not whitespace passes as translated. *)
Theorem blank_iff_whitespace_only text :
  blankText text = true ↔ ∀ c, hasChar c text = true → isSpace c = true.
Proof.
  rewrite <- onlySpaces_chars. unfold blankText.
  rewrite orb_true_iff, String.eqb_eq, trim_empty_iff. unfold allSpace.
  destruct text as [|y text]; [by split; [|left]|].
  split; [by intros [?|?]|by right].
Qed.
End blank_test.
